(** * FileSystemDatasource: the fetch / cache / parse pipeline

    A shallow embedding of [src/datasource.ts].  The datasource picks a
    storage backend from a registry at construction time, resolves every
    query target through a process-wide cache keyed by path, selects a
    parser from the response content type and the path extension, and joins
    the per-target promises with [Promise.all].

    Conventions of the embedding:
    - JavaScript strings are [string]s of ASCII code units; indices are [Z],
      as the source compares them with [0] and relies on [-1] for "absent".
    - A promise is represented by the way it settles ([Result]); the order in
      which pending promises settle is chosen by the environment and is an
      explicit argument (a schedule).
    - The static cache, the wall clock and the trace of backend calls form the
      [World] threaded through every operation. *)

From stdpp Require Import gmap strings list fin_maps pretty.
From Stdlib Require Import ZArith Ascii String.

Open Scope string_scope.
Open Scope Z_scope.

(** ** JavaScript string primitives used by the source *)

Module JsString.

Definition chars (s : string) : list ascii := list_ascii_of_string s.
Definition of_chars (l : list ascii) : string := string_of_list_ascii l.

(** [s.length] *)
Definition len (s : string) : Z := Z.of_nat (List.length (chars s)).

Fixpoint starts_with (pat s : list ascii) : bool :=
  match pat, s with
  | [], _ => true
  | _ :: _, [] => false
  | a :: pat', b :: s' => if Ascii.eqb a b then starts_with pat' s' else false
  end.

(** [s.indexOf(pat)]: index of the first occurrence, [-1] when absent. *)
Fixpoint indexOf_chars (s pat : list ascii) : Z :=
  if starts_with pat s then 0
  else match s with
       | [] => -1
       | _ :: s' =>
           let r := indexOf_chars s' pat in
           if r <? 0 then -1 else r + 1
       end.

(** [s.lastIndexOf(pat)]: index of the last occurrence, [-1] when absent. *)
Fixpoint lastIndexOf_chars (s pat : list ascii) : Z :=
  match s with
  | [] => if starts_with pat [] then 0 else -1
  | _ :: s' =>
      let r := lastIndexOf_chars s' pat in
      if 0 <=? r then r + 1
      else if starts_with pat s then 0 else -1
  end.

Definition indexOf (s pat : string) : Z := indexOf_chars (chars s) (chars pat).
Definition lastIndexOf (s pat : string) : Z :=
  lastIndexOf_chars (chars s) (chars pat).

Definition clamp (n : Z) (s : string) : Z := Z.max 0 (Z.min n (len s)).

(** [s.substring(a, b)]: both ends are clamped to [0 .. length] and swapped
    when given in the wrong order. *)
Definition substring (s : string) (a b : Z) : string :=
  let a' := clamp a s in
  let b' := clamp b s in
  let lo := Z.min a' b' in
  let hi := Z.max a' b' in
  of_chars (take (Z.to_nat (hi - lo)) (drop (Z.to_nat lo) (chars s))).

(** [s.substr(start)]: a negative start counts from the end. *)
Definition substr (s : string) (start : Z) : string :=
  let from := if start <? 0 then Z.max 0 (len s + start) else start in
  of_chars (drop (Z.to_nat from) (chars s)).

Definition lower_char (c : ascii) : ascii :=
  let n := nat_of_ascii c in
  if ((65 <=? n) && (n <=? 90))%nat then ascii_of_nat (n + 32) else c.

(** [s.toLowerCase()] on ASCII code units. *)
Definition toLowerCase (s : string) : string :=
  of_chars (List.map lower_char (chars s)).

End JsString.

(** ** Values, errors and results *)

(** What a promise can be rejected with, or a statement can throw: the source
    only coerces such a value to a string and reads its [cancelled] and [err]
    properties.  Reading a property of [undefined] or [null] throws. *)
Inductive JsError :=
| JsUndefined
| JsNull
| JsString (s : string)
| JsObject (text : string) (cancelled err : bool).

Definition TypeError (msg : string) : JsError :=
  JsObject ("TypeError: " ++ msg) false false.

(** ["" + e] *)
Definition to_string (e : JsError) : string :=
  match e with
  | JsUndefined => "undefined"
  | JsNull => "null"
  | JsString s => s
  | JsObject text _ _ => text
  end.

(** The way a computation ends: a fulfilled promise or normal return ([Ok]),
    a rejected promise or a thrown exception ([Fail]). *)
Inductive Result (A : Type) :=
| Ok (a : A)
| Fail (e : JsError).
Arguments Ok {A} a.
Arguments Fail {A} e.

Definition bind_result {A B} (r : Result A) (k : A -> Result B) : Result B :=
  match r with
  | Ok a => k a
  | Fail e => Fail e
  end.

(** [e.cancelled && e.err], as a condition. *)
Definition cancelled_and_err (e : JsError) : Result bool :=
  match e with
  | JsUndefined => Fail (TypeError "Cannot read properties of undefined")
  | JsNull => Fail (TypeError "Cannot read properties of null")
  | JsString _ => Ok false
  | JsObject _ cancelled err => Ok (cancelled && err)
  end.

(** ** Data model *)

Inductive Value :=
| VString (s : string)
| VNumber (n : Z).

(** Modelled from the spec: the [Table] of response_parser, an ordered
    sequence of named columns and an ordered sequence of rows. *)
Record Table := {
  columns : list string;
  rows : list (list Value)
}.

(** Modelled from the spec: the [SeriesInfo] of response_parser, the display
    order of the series names and the datapoints of each name. *)
Record SeriesInfo := {
  order : list string;
  series : gmap string (list (Value * Value))
}.

Record CachedTable := {
  path : string;
  timestamp : Z;
  table : option Table
}.

(** Modelled from the spec: the response of a backend exposes a header
    lookup and the raw payload. *)
Record Response := {
  headers : gmap string string;
  payload : string
}.

(** Modelled from the spec: [FS.DirectoryInfo], the names of the files of a
    directory. *)
Record DirectoryInfo := {
  files : list string
}.

(** The classes a datasource can hold in [this.fs]; [PlainObject] is an
    object that is none of the four file systems. *)
Inductive FileSystem :=
| LocalFileSystem
| NginxFileSystem
| S3FileSystem
| UnknownFileSystem
| PlainObject.

Inductive ResponseParser :=
| CSVResponseParser
| JSONResponseParser
| AvroResponseParser.

Record JsonData := {
  timeInterval : option string;
  type : option string
}.

Record InstanceSettings := {
  jsonData : option JsonData
}.

(** [backendSrv] is only handed on to the backends; the one thing that can
    matter to the constructor is whether its own enumerable properties are
    all property descriptors. *)
Record BackendSrv := {
  descriptors_only : bool
}.

Record FileSystemDatasource := {
  interval : option string;
  fs : FileSystem;
  parsers : gmap string ResponseParser
}.

Record QueryTarget := {
  target_path : option string;
  changes : bool
}.

Record QueryOptions := {
  targets : list QueryTarget;
  scopedVars : gmap string string
}.

(** One element of the flattened [data] array of a query response. *)
Inductive DataEntry :=
| RawTable (t : Table)
| SeriesEntry (target alias : string) (datapoints : option (list (Value * Value))).

Record QueryResponse := {
  data : list DataEntry
}.

Record TestResult := {
  status : string;
  message : string
}.

(** A call [fs.fetch(path, binary)]. *)
Definition FetchCall : Type := string * bool.

(** The shared state every operation runs in: the static
    [FileSystemDatasource.cache], the clock read by [Date.now()] and the
    trace of the calls made to backends. *)
Record World := {
  cache : gmap string CachedTable;
  now : Z;
  fetch_log : list FetchCall
}.

Definition set_cache (c : gmap string CachedTable) (w : World) : World :=
  {| cache := c; now := now w; fetch_log := fetch_log w |}.

Definition log_fetch (c : FetchCall) (w : World) : World :=
  {| cache := cache w; now := now w; fetch_log := fetch_log w ++ [c] |}.

(** Wall-clock time passes. *)
Definition elapse (dt : Z) (w : World) : World :=
  {| cache := cache w; now := now w + dt; fetch_log := fetch_log w |}.

(** ** External collaborators

    The classes imported by the source.  A backend's answer to a fetch may
    depend on the calls made before it. *)
Class Collaborators := {
  templateSrv_replace : string -> gmap string string -> string;
  fs_fetch : FileSystem -> list FetchCall -> string -> bool -> Result Response;
  fs_list : FileSystem -> string -> Result DirectoryInfo;
  parser_parse : ResponseParser -> Response -> option string -> Result Table;
  parse_millis : ResponseParser -> Response -> Z;
  processChanges : Table -> Result SeriesInfo
}.

(** ** Construction: the registry of backends *)

Record Builder := {
  name : string;
  create : InstanceSettings -> BackendSrv -> FileSystem
}.

(** The own properties of the object literal [FileSystemDatasource.registry]. *)
Definition registry : gmap string Builder :=
  {[ "local" := {| name := "Local (host)"; create := fun _ _ => LocalFileSystem |};
     "nginx" := {| name := "NGINX (json)"; create := fun _ _ => NginxFileSystem |};
     "s3" := {| name := "Amazon S3"; create := fun _ _ => S3FileSystem |} ]}.

(** [registry] is a plain object: a property that is not its own is looked up
    in [Object.prototype], whose members are these. *)
Definition Object_prototype : list string :=
  [ "constructor"; "hasOwnProperty"; "isPrototypeOf"; "propertyIsEnumerable";
    "toLocaleString"; "toString"; "valueOf"; "__proto__";
    "__defineGetter__"; "__defineSetter__"; "__lookupGetter__";
    "__lookupSetter__" ].

(** What [registry[key]] evaluates to when it is not [undefined]. *)
Inductive RegistryValue :=
| OwnBuilder (b : Builder)
| ObjectFunction      (* the inherited [constructor]: [Object], which has a [create] *)
| PrototypeMember.    (* any other inherited member: truthy, without [create] *)

Definition registry_get (key : string) : option RegistryValue :=
  match registry !! key with
  | Some b => Some (OwnBuilder b)
  | None =>
      if bool_decide (key ∈ Object_prototype)
      then Some (if String.eqb key "constructor" then ObjectFunction else PrototypeMember)
      else None
  end.

(** [builder.create(instanceSettings, backendSrv)] *)
Definition call_create (builder : RegistryValue)
    (instanceSettings : InstanceSettings) (backendSrv : BackendSrv)
  : Result FileSystem :=
  match builder with
  | OwnBuilder b => Ok (create b instanceSettings backendSrv)
  | ObjectFunction =>
      if descriptors_only backendSrv then Ok PlainObject
      else Fail (TypeError "Property description must be an object")
  | PrototypeMember => Fail (TypeError "builder.create is not a function")
  end.

Definition constructor (instanceSettings : InstanceSettings) (backendSrv : BackendSrv)
  : Result FileSystemDatasource :=
  let safeJsonData :=
    default {| timeInterval := None; type := None |} (jsonData instanceSettings) in
  let type_ := default "undefined" (type safeJsonData) in
  bind_result
    (match registry_get type_ with
     | Some builder => call_create builder instanceSettings backendSrv
     | None => Ok UnknownFileSystem
     end)
    (fun fs_ =>
       Ok {| interval := timeInterval safeJsonData;
             fs := fs_;
             parsers := <["json" := JSONResponseParser]>
                          (<["avro" := AvroResponseParser]>
                             (<["csv" := CSVResponseParser]> ∅)) |}).

(** ** Cache-or-fetch *)

(** The extension of a path, as computed at the head of [_fetchOrUseCached]. *)
Definition extension (p : string) : string :=
  let norm := p in
  let idx := JsString.lastIndexOf norm "?" in
  let norm := if 0 <? idx then JsString.substring p 0 idx else norm in
  let idx := JsString.lastIndexOf norm "#" in
  let norm := if 0 <? idx then JsString.substring p 0 idx else norm in
  let idx := JsString.lastIndexOf norm "." in
  if 0 <? idx then JsString.toLowerCase (JsString.substr norm (idx + 1)) else "".

Definition isAvro (p : string) : bool := String.eqb (extension p) "avro".
Definition isBinary (p : string) : bool := isAvro p.

(** The parser chosen in the callback of the fetch. *)
Definition select_parser (ds : FileSystemDatasource)
    (contentType : option string) (avro : bool) : option ResponseParser :=
  let parser := parsers ds !! "csv" in
  let json :=
    match contentType with
    | Some ct => negb (String.eqb ct "") && (0 <=? JsString.indexOf ct "json")
    | None => false
    end in
  if json then parsers ds !! "json"
  else if avro then parsers ds !! "avro"
  else parser.

(** The promise [_fetchOrUseCached] hands back, before it has settled: either
    already resolved with the cached table, or waiting for the backend, whose
    eventual answer is recorded with it. *)
Inductive Pending :=
| Hit (tb : Table)
| Miss (p : string) (avro : bool) (answer : Result Response).

Section Pipeline.
Context `{Collaborators}.

(** The synchronous part: the cache lookup and, on a miss, the call of the
    backend. *)
Definition issue (ds : FileSystemDatasource) (p : string) (w : World)
  : World * Pending :=
  match cache w !! p with
  | Some {| table := Some tb |} => (w, Hit tb)
  | _ =>
      let answer := fs_fetch (fs ds) (fetch_log w) p (isBinary p) in
      (log_fetch (p, isBinary p) w, Miss p (isAvro p) answer)
  end.

(** The callback given to [then], run in the world in which the answer
    arrives: the parser runs first, [Date.now()] is read after it, and the
    entry is put into the cache last. *)
Definition settle (ds : FileSystemDatasource) (pd : Pending) (w : World)
  : World * Result Table :=
  match pd with
  | Hit tb => (w, Ok tb)
  | Miss p avro (Fail e) => (w, Fail e)
  | Miss p avro (Ok res) =>
      let contentType := headers res !! "content-type" in
      match select_parser ds contentType avro with
      | None => (w, Fail (TypeError "Cannot read properties of undefined"))
      | Some parser =>
          let w1 := elapse (parse_millis parser res) w in
          match parser_parse parser res contentType with
          | Fail e => (w1, Fail e)
          | Ok tb =>
              let t := {| path := p; table := Some tb; timestamp := now w1 |} in
              (set_cache (<[p := t]> (cache w1)) w1, Ok tb)
          end
      end
  end.

(** A call of [_fetchOrUseCached] that is awaited on its own; [latency] is
    the time the backend takes to answer. *)
Definition _fetchOrUseCached (ds : FileSystemDatasource) (p : string)
    (latency : Z) (w : World) : World * Result Table :=
  let '(w1, pd) := issue ds p w in
  settle ds pd (match pd with Hit _ => w1 | Miss _ _ _ => elapse latency w1 end).

(** ** Queries *)

Definition getTimeFilter (options : QueryOptions) : string := "YYYYMMDD".

(** Truthiness of [target.path]. *)
Definition has_path (target : QueryTarget) : bool :=
  match target_path target with
  | Some s => negb (String.eqb s "")
  | None => false
  end.

(** A target that passed the filter, with the [req] the map step gave it. *)
Record QueuedTarget := {
  queued : QueryTarget;
  req : string
}.

Definition queryTargets (options : QueryOptions) : list QueuedTarget :=
  let timeFilter := getTimeFilter options in
  let scoped := <["range" := timeFilter]> (scopedVars options) in
  List.map
    (fun target =>
       {| queued := target;
          req := templateSrv_replace (default "" (target_path target)) scoped |})
    (List.filter has_path (targets options)).

(** What the promise of one target resolves to: the table itself, or the
    array [ddd] of series entries. *)
Inductive TargetValue :=
| TableValue (tb : Table)
| SeriesArray (ddd : list DataEntry).

(** The callback applied to the table of a target. *)
Definition on_table (target : QueryTarget) (tb : Table) : Result TargetValue :=
  if changes target then
    bind_result (processChanges tb)
      (fun info =>
         Ok (SeriesArray
               (fold_left
                  (fun (ddd : list DataEntry) name =>
                     (ddd ++ [SeriesEntry name name (series info !! name)])%list)
                  (order info) [])))
  else Ok (TableValue tb).

(** [_.flattenDeep] on the array of target values: arrays are spliced in,
    tables are kept as elements. *)
Definition flattenDeep (values : list TargetValue) : list DataEntry :=
  flat_map
    (fun v => match v with
              | TableValue tb => [RawTable tb]
              | SeriesArray ddd => ddd
              end)
    values.

(** One promise of the array [queries]. *)
Inductive Slot :=
| Waiting (target : QueuedTarget) (pd : Pending)
| Settled (r : Result TargetValue).

(** The state of [Promise.all(queries)]: the promises, and the reason of
    the first of them that was rejected. *)
Record Join := {
  slots : list Slot;
  rejection : option JsError
}.

(** The synchronous [map] over the targets: every target consults the cache
    and, on a miss, calls the backend, before any answer arrives. *)
Fixpoint issue_all (ds : FileSystemDatasource) (qts : list QueuedTarget)
    (w : World) : World * list Slot :=
  match qts with
  | [] => (w, [])
  | qt :: rest =>
      let '(w1, pd) := issue ds (req qt) w in
      let '(w2, tl) := issue_all ds rest w1 in
      (w2, Waiting qt pd :: tl)
  end.

(** Promise number [i] settles: its callbacks run, and [Promise.all]
    records a first rejection. *)
Definition complete (ds : FileSystemDatasource) (i : nat)
    (st : World * Join) : World * Join :=
  let '(w, j) := st in
  match slots j !! i with
  | Some (Waiting qt pd) =>
      let '(w1, r) := settle ds pd w in
      let r1 := bind_result r (on_table (queued qt)) in
      (w1,
       {| slots := <[i := Settled r1]> (slots j);
          rejection := match rejection j, r1 with
                       | None, Fail e => Some e
                       | first, _ => first
                       end |})
  | _ => st
  end.

(** The environment decides in which order, and when, the promises settle:
    a schedule lists indices into [queries], each with the time elapsed
    before it. *)
Definition Schedule : Type := list (nat * Z).

Definition run_schedule (ds : FileSystemDatasource) (sched : Schedule)
    (st : World * Join) : World * Join :=
  fold_left
    (fun st ev => let '(w, j) := st in complete ds ev.1 (elapse ev.2 w, j))
    sched st.

(** Every promise settles in the end: those the schedule left out settle
    after it, in the order they were created. *)
Definition drain (ds : FileSystemDatasource) (st : World * Join)
  : World * Join :=
  fold_left (fun st i => complete ds i st) (seq 0 (List.length (slots st.2))) st.

Definition fulfilled (sl : list Slot) : list TargetValue :=
  flat_map
    (fun s => match s with
              | Settled (Ok v) => [v]
              | _ => []
              end)
    sl.

(** What [Promise.all(queries).then(...)] settles to. *)
Definition join_result (j : Join) : Result QueryResponse :=
  match rejection j with
  | Some e => Fail e
  | None => Ok {| data := flattenDeep (fulfilled (slots j)) |}
  end.

Definition query (ds : FileSystemDatasource) (options : QueryOptions)
    (sched : Schedule) (w : World) : World * Result QueryResponse :=
  let qts := queryTargets options in
  if (List.length qts =? 0)%nat then (w, Ok {| data := [] |})
  else
    let '(w1, queries) := issue_all ds qts w in
    let '(w2, j) :=
      drain ds (run_schedule ds sched (w1, {| slots := queries; rejection := None |})) in
    (w2, join_result j).

(** ** Connectivity check *)

Definition promise_then {A B} (r : Result A) (f : A -> Result B) : Result B :=
  bind_result r f.

Definition promise_catch {A} (r : Result A) (f : JsError -> Result A) : Result A :=
  match r with
  | Ok a => Ok a
  | Fail e => f e
  end.

Definition testDatasource (ds : FileSystemDatasource) : Result TestResult :=
  promise_catch
    (promise_then (fs_list (fs ds) "")
       (fun dir =>
          Ok {| status := "success";
                message := "Root Contains " ++ pretty (List.length (files dir))
                           ++ " Files" |}))
    (fun err =>
       let rsp := {| status := "error"; message := "Error: " ++ to_string err |} in
       bind_result (cancelled_and_err err)
         (fun request_failed =>
            Ok (if request_failed
                then {| status := status rsp;
                        message := "Error making HTTP request.  Check the javascrit console for more information" |}
                else rsp))).

End Pipeline.

(** ** Schedule-free readings of a query

    What each promise of a query settles to does not depend on the world in
    which its callbacks run; these functions give it directly. *)

Section Readings.
Context `{Collaborators}.

(** The table a pending [_fetchOrUseCached] promise settles to. *)
Definition pending_table (ds : FileSystemDatasource) (pd : Pending) : Result Table :=
  match pd with
  | Hit tb => Ok tb
  | Miss p avro answer =>
      bind_result answer
        (fun res =>
           let contentType := headers res !! "content-type" in
           match select_parser ds contentType avro with
           | None => Fail (TypeError "Cannot read properties of undefined")
           | Some parser => parser_parse parser res contentType
           end)
  end.

(** The value the promise of one target settles to. *)
Definition target_result (ds : FileSystemDatasource) (s : Slot) : Result TargetValue :=
  match s with
  | Waiting qt pd => bind_result (pending_table ds pd) (on_table (queued qt))
  | Settled r => r
  end.

Definition slot_table (ds : FileSystemDatasource) (s : Slot) : Result Table :=
  match s with
  | Waiting qt pd => pending_table ds pd
  | Settled _ => Fail JsUndefined
  end.

(** The promises a query creates, in the order of [queries]. *)
Definition queries_of (ds : FileSystemDatasource) (options : QueryOptions)
    (w : World) : list Slot :=
  (issue_all ds (queryTargets options) w).2.

(** The promise of a target is rejected with [e]: its fetch is rejected, the
    selected parser throws, or the changes transform throws. *)
Inductive target_fails (ds : FileSystemDatasource) : Slot -> JsError -> Prop :=
| fetch_rejected qt p avro e :
    target_fails ds (Waiting qt (Miss p avro (Fail e))) e
| parser_throws qt p avro res parser e :
    select_parser ds (headers res !! "content-type") avro = Some parser ->
    parser_parse parser res (headers res !! "content-type") = Fail e ->
    target_fails ds (Waiting qt (Miss p avro (Ok res))) e
| transform_throws qt pd tb e :
    pending_table ds pd = Ok tb ->
    changes (queued qt) = true ->
    processChanges tb = Fail e ->
    target_fails ds (Waiting qt pd) e.

(** The entries one target contributes to [data], given its table: one entry
    per name of the series order when the changes flag is set, the raw table
    otherwise. *)
Definition contribution (target : QueryTarget) (tb : Table) : list DataEntry :=
  if changes target then
    match processChanges tb with
    | Ok info =>
        List.map (fun name => SeriesEntry name name (series info !! name)) (order info)
    | Fail _ => []
    end
  else [RawTable tb].

End Readings.

(** ** Evolution of the world

    The primitive steps by which any datasource instance, or the passing of
    time, changes the shared world. *)

Section Evolution.
Context `{Collaborators}.

(** What happens between the synchronous parts: a callback runs, or time
    passes. *)
Inductive callback_step : World -> World -> Prop :=
| step_settle ds pd w : callback_step w (settle ds pd w).1
| step_elapse dt w : callback_step w (elapse dt w).

Inductive step : World -> World -> Prop :=
| step_issue ds p w : step w (issue ds p w).1
| step_callback w w' : callback_step w w' -> step w w'.

(** [s] is what the promise [s0] has become: still waiting, or settled to its
    value. *)
Definition slot_progress (ds : FileSystemDatasource) (s0 s : Slot) : Prop :=
  s = s0 \/ s = Settled (target_result ds s0).

(** The rejection recorded by [Promise.all] is the reason of a rejected
    promise, and none is recorded only while no promise is rejected. *)
Definition rejection_ok (sl : list Slot) (rej : option JsError) : Prop :=
  match rej with
  | None => forall k e, sl !! k <> Some (Settled (Fail e))
  | Some e => exists k, sl !! k = Some (Settled (Fail e))
  end.

Definition settled_below (k : nat) (sl : list Slot) : Prop :=
  forall i s, (i < k)%nat -> sl !! i = Some s -> exists r, s = Settled r.

(** The invariant of the join: every promise is either as created or settled
    to its schedule-free value, and the recorded rejection is faithful. *)
Definition join_inv (ds : FileSystemDatasource) (init : list Slot) (j : Join) : Prop :=
  Forall2 (slot_progress ds) init (slots j) /\ rejection_ok (slots j) (rejection j).

End Evolution.

(** ** The extension and the content type, as the specification words them *)

(** Left-to-right scan for the index of the last occurrence of [c]. *)
Fixpoint last_index_from (c : ascii) (l : list ascii) (i : nat)
    (found : option nat) : option nat :=
  match l with
  | [] => found
  | a :: l' => last_index_from c l' (S i) (if Ascii.eqb a c then Some i else found)
  end.

Definition last_index (c : ascii) (l : list ascii) : option nat :=
  last_index_from c l 0%nat None.

(** Truncate at the last [c], only if its index is greater than 0. *)
Definition truncate_at_last (c : ascii) (l : list ascii) : list ascii :=
  match last_index c l with
  | Some i => if (0 <? i)%nat then take i l else l
  | None => l
  end.

(** Truncate at the last "?", then at the last "#", then take the lowercased
    text after the last "." when that dot's index is greater than 0. *)
Definition normalized_extension (p : string) : string :=
  let norm := truncate_at_last "#" (truncate_at_last "?" (JsString.chars p)) in
  match last_index "." norm with
  | Some i =>
      if (0 <? i)%nat
      then JsString.of_chars (List.map JsString.lower_char (drop (S i) norm))
      else ""
  | None => ""
  end.

(** [s] contains [pat] as a substring. *)
Definition contains (s pat : string) : Prop :=
  exists pre suf : string, s = pre ++ pat ++ suf.

(** The content-type header is present and contains "json". *)
Definition mentions_json (contentType : option string) : Prop :=
  exists ct, contentType = Some ct /\ contains ct "json".

(** ** A small concrete installation, used to run the model *)

Module Demo.

Definition csv_response : Response :=
  {| headers := {[ "content-type" := "text/csv" ]}; payload := "name,value" |}.

Definition json_response : Response :=
  {| headers := {[ "content-type" := "application/json" ]}; payload := "{}" |}.

Definition avro_response : Response :=
  {| headers := ∅; payload := "Obj" |}.

Definition broken_response : Response :=
  {| headers := ∅; payload := "???" |}.

Definition not_found : JsError := JsObject "Error: not found" false false.

Definition bad_magic : JsError := JsObject "Error: bad magic" false false.

Definition fetch (fs_ : FileSystem) (log : list FetchCall) (p : string)
    (binary : bool) : Result Response :=
  match fs_ with
  | LocalFileSystem =>
      if String.eqb p "data.csv" then Ok csv_response
      else if String.eqb p "data.json" then Ok json_response
      else if String.eqb p "events.avro" then Ok avro_response
      else if String.eqb p "broken.avro" then Ok broken_response
      else Fail not_found
  | _ => Fail (JsString "Unsupported file system")
  end.

Definition list_dir (fs_ : FileSystem) (p : string) : Result DirectoryInfo :=
  match fs_ with
  | LocalFileSystem => Ok {| files := ["data.csv"; "data.json"; "events.avro"] |}
  | NginxFileSystem => Fail (JsObject "[object Object]" true true)
  | S3FileSystem => Fail JsUndefined
  | _ => Fail (JsString "Unsupported file system")
  end.

Definition parse (parser : ResponseParser) (res : Response)
    (contentType : option string) : Result Table :=
  match parser with
  | AvroResponseParser =>
      if String.eqb (payload res) "Obj"
      then Ok {| columns := ["key"; "x"; "y"]; rows := [] |}
      else Fail bad_magic
  | _ => Ok {| columns := [payload res]; rows := [] |}
  end.

Definition process (tb : Table) : Result SeriesInfo :=
  match columns tb with
  | [_; _; _] =>
      Ok {| order := ["a"; "b"];
            series := {[ "a" := [(VNumber 1, VNumber 10)];
                         "b" := [(VNumber 1, VNumber 20)] ]} |}
  | _ => Fail (JsObject "Error: missing columns" false false)
  end.

#[export] Instance collaborators : Collaborators := {|
  templateSrv_replace := fun p _ => p;
  fs_fetch := fetch;
  fs_list := list_dir;
  parser_parse := parse;
  parse_millis := fun _ _ => 3;
  processChanges := process
|}.

Definition local_settings : InstanceSettings :=
  {| jsonData := Some {| timeInterval := None; type := Some "local" |} |}.

Definition backendSrv : BackendSrv := {| descriptors_only := false |}.

Definition local_ds : FileSystemDatasource :=
  {| interval := None;
     fs := LocalFileSystem;
     parsers := <["json" := JSONResponseParser]>
                  (<["avro" := AvroResponseParser]>
                     (<["csv" := CSVResponseParser]> ∅)) |}.

Definition s3_ds : FileSystemDatasource :=
  {| interval := None; fs := S3FileSystem; parsers := parsers local_ds |}.

Definition start : World := {| cache := ∅; now := 1000; fetch_log := [] |}.

Definition csv_table : Table := {| columns := ["name,value"]; rows := [] |}.

(** A world in which "data.csv" has been fetched before. *)
Definition warm : World :=
  {| cache := {[ "data.csv" := {| path := "data.csv"; timestamp := 900;
                                  table := Some csv_table |} ]};
     now := 1000;
     fetch_log := [("data.csv", false)] |}.

Definition target (p : string) (c : bool) : QueryTarget :=
  {| target_path := Some p; changes := c |}.

Definition no_paths : QueryOptions :=
  {| targets := [ {| target_path := None; changes := false |};
                  {| target_path := Some ""; changes := true |} ];
     scopedVars := ∅ |}.

Definition all_good : QueryOptions :=
  {| targets := [ target "events.avro" true;
                  {| target_path := None; changes := false |};
                  target "data.csv" false ];
     scopedVars := ∅ |}.

Definition one_missing : QueryOptions :=
  {| targets := [ target "events.avro" true;
                  target "missing.csv" false;
                  target "data.csv" false ];
     scopedVars := ∅ |}.

End Demo.

(** ** The remaining methods *)

Definition getFileSystem (ds : FileSystemDatasource) : FileSystem := fs ds.

(** [getTagKeys] and [getTagValues] log their argument and resolve with a
    fixed list; [metricFindQuery] logs and resolves with no data. *)
Definition getTagKeys {A} (options : A) : Result (list string) :=
  Ok ["aaa"; "bbb"; "ccc"].

Definition getTagValues {A} (options : A) : Result (list string) :=
  Ok ["aaa"; "bbb"; "ccc"].

Definition metricFindQuery {A B} (query : A) (options : B) : Result QueryResponse :=
  Ok {| data := [] |}.

(** ** Vocabulary for the further properties *)

(** The key the constructor looks up in the registry: [safeJsonData.type],
    an absent type reading as the property name "undefined". *)
Definition discriminator (instanceSettings : InstanceSettings) : string :=
  default "undefined"
    (type (default {| timeInterval := None; type := None |}
             (jsonData instanceSettings))).

(** The test [t && t.table] of [_fetchOrUseCached] on the entry of a path. *)
Definition is_cached (w : World) (p : string) : bool :=
  match cache w !! p with
  | Some {| table := Some _ |} => true
  | _ => false
  end.

(** The queued targets whose request is not served by the cache of [w]. *)
Definition misses (w : World) (qts : list QueuedTarget) : list QueuedTarget :=
  List.filter (fun qt => negb (is_cached w (req qt))) qts.

(** Every entry is stored under its own path and holds a table. *)
Definition entries_coherent (w : World) : Prop :=
  forall p ct, cache w !! p = Some ct -> path ct = p /\ is_Some (table ct).

Definition is_ok {A} (r : Result A) : Prop := exists a, r = Ok a.

(** The code units below 128 and the upper-case letters among them.  On a
    string of such code units [JsString.toLowerCase] is the [toLowerCase] of
    JavaScript: it lowers A-Z and leaves the rest. *)
Definition is_ascii (c : ascii) : bool := (nat_of_ascii c <? 128)%nat.

Definition is_upper (c : ascii) : bool :=
  let n := nat_of_ascii c in ((65 <=? n) && (n <=? 90))%nat.

Definition ascii_only (s : string) : Prop :=
  Forall (fun c => is_ascii c = true) (JsString.chars s).

(** * Properties *)

(** ** Strings *)

Section StringFacts.
Import JsString.

Lemma chars_app (a b : string) : chars (a ++ b) = (chars a ++ chars b)%list.
Proof.
  unfold chars. induction a as [|c a IH]; simpl; [reflexivity|].
  now rewrite IH.
Qed.

Lemma of_chars_chars (s : string) : of_chars (chars s) = s.
Proof. apply string_of_list_ascii_of_string. Qed.

Lemma chars_of_chars (l : list ascii) : chars (of_chars l) = l.
Proof. apply list_ascii_of_string_of_list_ascii. Qed.

Lemma chars_inj (a b : string) : chars a = chars b -> a = b.
Proof.
  intros E. rewrite <- (of_chars_chars a), <- (of_chars_chars b). now rewrite E.
Qed.

Lemma starts_with_spec (pat s : list ascii) :
  starts_with pat s = true <-> exists suf, s = (pat ++ suf)%list.
Proof.
  revert s. induction pat as [|a pat IH]; intros s; simpl.
  - split; eauto.
  - destruct s as [|b s].
    + split; [discriminate|]. intros [suf E]. discriminate.
    + destruct (Ascii.eqb_spec a b) as [->|Hne].
      * rewrite IH. split; intros [suf E]; exists suf; congruence.
      * split; [discriminate|]. intros [suf E]. congruence.
Qed.

Lemma indexOf_chars_lower (s pat : list ascii) : -1 <= indexOf_chars s pat.
Proof.
  induction s as [|a s IH]; simpl.
  - destruct (starts_with pat []); lia.
  - destruct (starts_with pat (a :: s)); [lia|].
    destruct (Z.ltb_spec (indexOf_chars s pat) 0); lia.
Qed.

Lemma indexOf_chars_found (s pat : list ascii) :
  0 <= indexOf_chars s pat <-> exists pre suf, s = (pre ++ pat ++ suf)%list.
Proof.
  induction s as [|a s IH]; simpl.
  - destruct (starts_with pat []) eqn:Hs.
    + split; [|lia]. intros _. apply starts_with_spec in Hs as [suf E].
      now exists [], suf.
    + split; [lia|]. intros (pre & suf & E).
      destruct pre; [|discriminate]. simpl in E.
      assert (starts_with pat [] = true) by (apply starts_with_spec; eauto).
      congruence.
  - destruct (starts_with pat (a :: s)) eqn:Hs.
    + split; [|lia]. intros _. apply starts_with_spec in Hs as [suf E].
      now exists [], suf.
    + destruct (Z.ltb_spec (indexOf_chars s pat) 0) as [Hlt|Hge].
      * split; [lia|]. intros (pre & suf & E). destruct pre as [|b pre].
        -- assert (starts_with pat (a :: s) = true)
             by (apply starts_with_spec; eauto).
           congruence.
        -- injection E as -> E. assert (0 <= indexOf_chars s pat); [|lia].
           apply IH. eauto.
      * split; [|lia]. intros _. apply IH in Hge as (pre & suf & ->).
        now exists (a :: pre), suf.
Qed.

(** [indexOf] is non-negative exactly on the strings that contain the
    pattern. *)
Lemma indexOf_contains (s pat : string) : 0 <= indexOf s pat <-> contains s pat.
Proof.
  unfold indexOf, contains. rewrite indexOf_chars_found. split.
  - intros (pre & suf & E). exists (of_chars pre), (of_chars suf).
    apply chars_inj. now rewrite !chars_app, !chars_of_chars.
  - intros (pre & suf & ->). exists (chars pre), (chars suf).
    now rewrite !chars_app.
Qed.

(** The recursive and the scanning computation of the last index agree. *)
Lemma lastIndexOf_scan (c : ascii) (l : list ascii) (i : nat) (found : option nat) :
  last_index_from c l i found =
    (if 0 <=? lastIndexOf_chars l [c]
     then Some (i + Z.to_nat (lastIndexOf_chars l [c]))%nat
     else found)
  /\ -1 <= lastIndexOf_chars l [c] < Z.of_nat (List.length l).
Proof.
  revert i found. induction l as [|a l IH]; intros i found; simpl.
  - split; [reflexivity|lia].
  - destruct (IH (S i) (if Ascii.eqb a c then Some i else found)) as [E B].
    rewrite E. clear E IH.
    destruct (Z.leb_spec 0 (lastIndexOf_chars l [c])) as [Hge|Hlt].
    + destruct (Z.leb_spec 0 (lastIndexOf_chars l [c] + 1)); [|lia].
      split; [f_equal; lia|lia].
    + rewrite (Ascii.eqb_sym c a). destruct (Ascii.eqb a c); simpl.
      * split; [f_equal; lia|lia].
      * split; [reflexivity|lia].
Qed.

Lemma lastIndexOf_last_index (c : ascii) (l : list ascii) :
  last_index c l =
    (if 0 <=? lastIndexOf_chars l [c] then Some (Z.to_nat (lastIndexOf_chars l [c]))
     else None).
Proof. unfold last_index. now rewrite (proj1 (lastIndexOf_scan c l 0 None)). Qed.

Lemma lastIndexOf_chars_bound (c : ascii) (l : list ascii) :
  -1 <= lastIndexOf_chars l [c] < Z.of_nat (List.length l).
Proof. apply (lastIndexOf_scan c l 0 None). Qed.

(** [p.substring(0, idx)] keeps the first [idx] code units. *)
Lemma substring_prefix (p : string) (idx : Z) :
  0 <= idx -> chars (substring p 0 idx) = take (Z.to_nat idx) (chars p).
Proof.
  intros Hidx. unfold substring, clamp, len. rewrite chars_of_chars.
  set (n := Z.of_nat (List.length (chars p))).
  assert (0 <= n) by lia.
  replace (Z.max 0 (Z.min 0 n)) with 0 by lia.
  replace (Z.min 0 (Z.max 0 (Z.min idx n))) with 0 by lia.
  replace (Z.max 0 (Z.max 0 (Z.min idx n)) - 0) with (Z.min idx n) by lia.
  change (Z.to_nat 0) with 0%nat. rewrite drop_0.
  destruct (Z.le_ge_cases idx n) as [Hle|Hge].
  - now rewrite Z.min_l.
  - rewrite Z.min_r by lia. subst n. rewrite Nat2Z.id.
    rewrite !take_ge; [reflexivity|lia|lia].
Qed.

Lemma substr_suffix (s : string) (idx : Z) :
  0 <= idx -> chars (substr s idx) = drop (Z.to_nat idx) (chars s).
Proof.
  intros Hidx. unfold substr. rewrite chars_of_chars.
  destruct (Z.ltb_spec idx 0); [lia|reflexivity].
Qed.

(** Truncation in the source ([path.substring(0, idx)] under [idx > 0], with
    [idx] found in a prefix [norm] of the path) is truncation at the last
    occurrence. *)
Lemma truncate_step (c : ascii) (p norm : string) (k : nat) :
  chars norm = take k (chars p) ->
  chars (let idx := lastIndexOf norm (String c "") in
         if 0 <? idx then substring p 0 idx else norm)
  = truncate_at_last c (chars norm)
  /\ exists k', truncate_at_last c (chars norm) = take k' (chars p).
Proof.
  intros Hnorm. unfold truncate_at_last, lastIndexOf. simpl chars at 2.
  change (chars (String c "")) with [c].
  rewrite lastIndexOf_last_index.
  pose proof (lastIndexOf_chars_bound c (chars norm)) as B.
  set (idx := lastIndexOf_chars (chars norm) [c]) in *.
  destruct (Z.ltb_spec 0 idx) as [Hpos|Hnpos].
  - destruct (Z.leb_spec 0 idx); [|lia].
    destruct (Nat.ltb_spec 0 (Z.to_nat idx)); [|lia].
    rewrite substring_prefix by lia. rewrite Hnorm in *.
    rewrite take_take.
    rewrite length_take in B.
    replace (Z.to_nat idx `min` k)%nat with (Z.to_nat idx) by lia.
    split; [reflexivity|eauto].
  - destruct (Z.leb_spec 0 idx).
    + destruct (Nat.ltb_spec 0 (Z.to_nat idx)); [lia|]. split; eauto.
    + split; eauto.
Qed.

(** The extension computed by the source is the normalized extension. *)
Lemma extension_normalized (p : string) : extension p = normalized_extension p.
Proof.
  unfold extension, normalized_extension.
  destruct (truncate_step "?" p p (List.length (chars p))) as [E1 [k1 K1]].
  { now rewrite take_ge. }
  change (String "?" "") with "?" in E1.
  set (norm1 := if 0 <? lastIndexOf p "?" then substring p 0 (lastIndexOf p "?") else p) in *.
  simpl in E1. rewrite <- E1 in K1 |- *.
  destruct (truncate_step "#" p norm1 k1 K1) as [E2 [k2 K2]].
  change (String "#" "") with "#" in E2.
  set (norm2 := if 0 <? lastIndexOf norm1 "#" then substring p 0 (lastIndexOf norm1 "#") else norm1) in *.
  simpl in E2. rewrite <- E2.
  rewrite lastIndexOf_last_index.
  pose proof (lastIndexOf_chars_bound "." (chars norm2)) as B.
  change (lastIndexOf_chars (chars norm2) ["."%char])
    with (lastIndexOf norm2 ".") in *.
  generalize dependent (lastIndexOf norm2 "."). intros idx B.
  destruct (Z.ltb_spec 0 idx) as [Hpos|Hnpos].
  - destruct (Z.leb_spec 0 idx); [|lia].
    destruct (Nat.ltb_spec 0 (Z.to_nat idx)); [|lia].
    unfold toLowerCase. rewrite substr_suffix by lia.
    do 3 f_equal. lia.
  - destruct (Z.leb_spec 0 idx); [|reflexivity].
    destruct (Nat.ltb_spec 0 (Z.to_nat idx)); [lia|reflexivity].
Qed.

Lemma isBinary_normalized (p : string) :
  isBinary p = true <-> normalized_extension p = "avro".
Proof.
  unfold isBinary, isAvro. rewrite String.eqb_eq. now rewrite extension_normalized.
Qed.

End StringFacts.

(** ** Construction *)

Lemma constructor_parsers st bs ds :
  constructor st bs = Ok ds ->
  parsers ds !! "csv" = Some CSVResponseParser /\
  parsers ds !! "avro" = Some AvroResponseParser /\
  parsers ds !! "json" = Some JSONResponseParser.
Proof.
  unfold constructor. intros E.
  destruct (match registry_get _ with Some _ => _ | None => _ end);
    simpl in E; [|discriminate].
  injection E as <-. simpl. repeat split; reflexivity.
Qed.

(** A discriminator that names neither a registered backend nor a member of
    [Object.prototype] yields the unknown file system. *)
Lemma constructor_unknown_type st bs key :
  type (default {| timeInterval := None; type := None |} (jsonData st)) = Some key ->
  registry !! key = None ->
  key ∉ Object_prototype ->
  exists ds, constructor st bs = Ok ds /\ fs ds = UnknownFileSystem.
Proof.
  intros Hty Hreg Hproto. unfold constructor, registry_get.
  rewrite Hty. simpl. rewrite Hreg.
  rewrite bool_decide_eq_false_2 by assumption. simpl. eauto.
Qed.

(** C3 (the code at the failing input): the discriminator ["toString"] is not
    a key of the registry, yet [registry["toString"]] is the function
    inherited from [Object.prototype], which is truthy and has no [create]:
    the constructor throws a [TypeError] instead of installing the unknown
    file system. *)
Theorem constructor_inherited_name_throws :
  constructor
    {| jsonData := Some {| timeInterval := None; type := Some "toString" |} |}
    Demo.backendSrv
  = Fail (TypeError "builder.create is not a function").
Proof. reflexivity. Qed.

(** ** Parser selection *)

(** A constructed datasource has a parser for every branch of the selection. *)
Lemma select_parser_defined st bs ds contentType avro :
  constructor st bs = Ok ds ->
  exists parser, select_parser ds contentType avro = Some parser.
Proof.
  intros Hds. apply constructor_parsers in Hds as (Hcsv & Havro & Hjson).
  unfold select_parser. rewrite Hcsv, Havro, Hjson.
  destruct (match contentType with Some _ => _ | None => _ end); [eauto|].
  destruct avro; eauto.
Qed.

Lemma json_test_spec (contentType : option string) :
  match contentType with
  | Some ct => negb (String.eqb ct "") && (0 <=? JsString.indexOf ct "json")
  | None => false
  end = true <-> mentions_json contentType.
Proof.
  unfold mentions_json. destruct contentType as [ct|].
  - rewrite andb_true_iff, negb_true_iff, Z.leb_le, indexOf_contains.
    split.
    + intros [_ Hc]. eauto.
    + intros (ct' & [= <-] & Hc). split; [|assumption].
      apply String.eqb_neq. intros ->. destruct Hc as (pre & suf & E).
      destruct pre; discriminate.
  - split; [discriminate|]. intros (ct & [=] & _).
Qed.

(** C4: for a constructed datasource the parser selection is total: every
    content type and path select exactly one parser, the JSON parser when the
    content-type header is present and contains "json", otherwise the avro
    parser when the extension of the path is "avro", otherwise the CSV
    parser. *)
Theorem select_parser_total st bs ds (contentType : option string) (p : string) :
  constructor st bs = Ok ds ->
  exists parser,
    select_parser ds contentType (isAvro p) = Some parser /\
    (forall parser', select_parser ds contentType (isAvro p) = Some parser' ->
                     parser' = parser) /\
    (mentions_json contentType -> parser = JSONResponseParser) /\
    (~ mentions_json contentType -> normalized_extension p = "avro" ->
     parser = AvroResponseParser) /\
    (~ mentions_json contentType -> normalized_extension p <> "avro" ->
     parser = CSVResponseParser).
Proof.
  intros Hds. apply constructor_parsers in Hds as (Hcsv & Havro & Hjson).
  pose proof (json_test_spec contentType) as Hj.
  pose proof (isBinary_normalized p) as Hb. unfold isBinary in Hb.
  unfold select_parser. rewrite Hcsv, Havro, Hjson.
  destruct (match contentType with Some _ => _ | None => _ end).
  - exists JSONResponseParser. repeat split; try congruence;
      intros Hn; exfalso; apply Hn, Hj; reflexivity.
  - assert (~ mentions_json contentType) as Hn by (rewrite <- Hj; discriminate).
    destruct (isAvro p).
    + exists AvroResponseParser. repeat split; try congruence; tauto.
    + exists CSVResponseParser. repeat split; try congruence; try tauto;
        intros _ He; apply Hb in He; discriminate.
Qed.

Lemma select_parser_witness :
  exists parser,
    select_parser Demo.local_ds (Some "application/json") (isAvro "events.avro")
      = Some parser /\
    parser = JSONResponseParser.
Proof.
  destruct (select_parser_total Demo.local_settings Demo.backendSrv Demo.local_ds
              (Some "application/json") "events.avro" eq_refl)
    as (parser & Hsel & _ & Hjson & _).
  exists parser. split; [exact Hsel|].
  apply Hjson. exists "application/json". split; [reflexivity|].
  exists "application/", "". reflexivity.
Defined.

(** ** Cache-or-fetch *)

Section PipelineFacts.
Context `{Collaborators}.

Lemma issue_hit ds p w ct tb :
  cache w !! p = Some ct -> table ct = Some tb -> issue ds p w = (w, Hit tb).
Proof.
  intros Hc Ht. unfold issue. rewrite Hc. destruct ct as [? ? t]. simpl in Ht.
  now rewrite Ht.
Qed.

Lemma issue_miss ds p w :
  (forall ct, cache w !! p = Some ct -> table ct = None) ->
  issue ds p w =
    (log_fetch (p, isBinary p) w,
     Miss p (isAvro p) (fs_fetch (fs ds) (fetch_log w) p (isBinary p))).
Proof.
  intros Hmiss. unfold issue. destruct (cache w !! p) as [[? ? t]|] eqn:Hc.
  - specialize (Hmiss _ eq_refl). simpl in Hmiss. now rewrite Hmiss.
  - reflexivity.
Qed.

Lemma issue_cases ds p w :
  (exists tb, issue ds p w = (w, Hit tb)) \/
  issue ds p w =
    (log_fetch (p, isBinary p) w,
     Miss p (isAvro p) (fs_fetch (fs ds) (fetch_log w) p (isBinary p))).
Proof.
  unfold issue. destruct (cache w !! p) as [[? ? [tb|]]|]; eauto.
Qed.

Lemma issue_cache ds p w : cache (issue ds p w).1 = cache w.
Proof. destruct (issue_cases ds p w) as [[tb ->]| ->]; reflexivity. Qed.

(** The value a pending promise settles to does not depend on the world in
    which its callback runs. *)
Lemma settle_result ds pd w : (settle ds pd w).2 = pending_table ds pd.
Proof.
  destruct pd as [tb|p avro [res|e]]; simpl; try reflexivity.
  destruct (select_parser ds _ avro); [|reflexivity].
  destruct (parser_parse _ res _); reflexivity.
Qed.

Lemma settle_log ds pd w : fetch_log (settle ds pd w).1 = fetch_log w.
Proof.
  destruct pd as [tb|p avro [res|e]]; simpl; try reflexivity.
  destruct (select_parser ds _ avro); [|reflexivity].
  destruct (parser_parse _ res _); reflexivity.
Qed.

(** A successful miss puts exactly one entry, stamped with the clock read
    after the parser ran. *)
Lemma settle_put ds p avro res parser tb w :
  select_parser ds (headers res !! "content-type") avro = Some parser ->
  parser_parse parser res (headers res !! "content-type") = Ok tb ->
  settle ds (Miss p avro (Ok res)) w =
    (let w1 := elapse (parse_millis parser res) w in
     set_cache (<[p := {| path := p; timestamp := now w1; table := Some tb |}]> (cache w)) w1,
     Ok tb).
Proof. intros Hsel Hparse. simpl. now rewrite Hsel, Hparse. Qed.

(** The cache changes only by a put. *)
Lemma settle_cache ds pd w :
  cache (settle ds pd w).1 = cache w \/
  exists p t tb, (settle ds pd w).2 = Ok tb /\ path t = p /\ table t = Some tb /\
                 cache (settle ds pd w).1 = <[p := t]> (cache w).
Proof.
  destruct pd as [tb|p avro [res|e]]; simpl; auto.
  destruct (select_parser ds _ avro); auto.
  destruct (parser_parse _ res _) as [tb|e]; auto.
  right. eexists p, _, tb. simpl. repeat split; reflexivity.
Qed.

Lemma settle_fail_cache ds pd w e :
  (settle ds pd w).2 = Fail e -> cache (settle ds pd w).1 = cache w.
Proof.
  intros Hf. destruct (settle_cache ds pd w) as [E|(p & t & tb & Hok & _)];
    [assumption|congruence].
Qed.

(** C1: when the cache holds an entry for the path whose table is present,
    [_fetchOrUseCached] resolves with that very table and leaves the world,
    and so the trace of backend calls, untouched.  On a miss it calls the
    backend once for that path; when the backend answers and the parser
    returns a table, that table is the result and the cache then maps the
    path to an entry holding the path, the table and, as its timestamp, the
    clock as read once the parser has finished. *)
Theorem fetchOrUseCached_hit_or_miss st bs ds p latency w :
  constructor st bs = Ok ds ->
  (forall ct tb,
     cache w !! p = Some ct -> table ct = Some tb ->
     _fetchOrUseCached ds p latency w = (w, Ok tb))
  /\
  ((forall ct, cache w !! p = Some ct -> table ct = None) ->
   let out := _fetchOrUseCached ds p latency w in
   fetch_log out.1 = (fetch_log w ++ [(p, isBinary p)])%list /\
   forall res,
     fs_fetch (fs ds) (fetch_log w) p (isBinary p) = Ok res ->
     exists parser,
       select_parser ds (headers res !! "content-type") (isAvro p) = Some parser /\
       forall tb,
         parser_parse parser res (headers res !! "content-type") = Ok tb ->
         out.2 = Ok tb /\
         cache out.1 = <[p := {| path := p; timestamp := now out.1; table := Some tb |}]> (cache w) /\
         cache out.1 !! p = Some {| path := p; timestamp := now out.1; table := Some tb |} /\
         now out.1 = now w + latency + parse_millis parser res).
Proof.
  intros Hds. split.
  - intros ct tb Hc Ht. unfold _fetchOrUseCached.
    now rewrite (issue_hit ds p w ct tb Hc Ht).
  - intros Hmiss out. subst out. unfold _fetchOrUseCached.
    rewrite (issue_miss ds p w Hmiss). split.
    + now rewrite settle_log.
    + intros res Hres. rewrite Hres.
      destruct (select_parser_defined st bs ds (headers res !! "content-type")
                  (isAvro p) Hds) as (parser & Hsel).
      exists parser. split; [assumption|]. intros tb Hparse.
      rewrite (settle_put ds p (isAvro p) res parser tb _ Hsel Hparse).
      simpl. repeat split; try reflexivity. apply lookup_insert_eq.
Qed.

(** C9: a resolution that fails leaves the cache as it was.  This holds for
    the callback run in any world, for an awaited [_fetchOrUseCached], when
    the backend rejects and when the selected parser throws. *)
Theorem failed_resolution_keeps_cache ds :
  (forall pd w e,
     (settle ds pd w).2 = Fail e -> cache (settle ds pd w).1 = cache w)
  /\
  (forall p latency w e,
     (_fetchOrUseCached ds p latency w).2 = Fail e ->
     cache (_fetchOrUseCached ds p latency w).1 = cache w)
  /\
  (forall p latency w e,
     (forall ct, cache w !! p = Some ct -> table ct = None) ->
     fs_fetch (fs ds) (fetch_log w) p (isBinary p) = Fail e ->
     (_fetchOrUseCached ds p latency w).2 = Fail e /\
     cache (_fetchOrUseCached ds p latency w).1 = cache w)
  /\
  (forall p latency w res parser e,
     (forall ct, cache w !! p = Some ct -> table ct = None) ->
     fs_fetch (fs ds) (fetch_log w) p (isBinary p) = Ok res ->
     select_parser ds (headers res !! "content-type") (isAvro p) = Some parser ->
     parser_parse parser res (headers res !! "content-type") = Fail e ->
     (_fetchOrUseCached ds p latency w).2 = Fail e /\
     cache (_fetchOrUseCached ds p latency w).1 = cache w).
Proof.
  assert (Hawait : forall p latency w e,
            (_fetchOrUseCached ds p latency w).2 = Fail e ->
            cache (_fetchOrUseCached ds p latency w).1 = cache w).
  { intros p latency w e. unfold _fetchOrUseCached.
    destruct (issue_cases ds p w) as [[tb ->]| ->]; [discriminate|].
    intros Hf. now rewrite (settle_fail_cache _ _ _ _ Hf). }
  split; [apply settle_fail_cache|]. split; [exact Hawait|]. split.
  - intros p latency w e Hmiss Hfetch.
    assert (Hres : (_fetchOrUseCached ds p latency w).2 = Fail e).
    { unfold _fetchOrUseCached. rewrite (issue_miss ds p w Hmiss).
      now rewrite Hfetch. }
    split; [exact Hres|exact (Hawait _ _ _ _ Hres)].
  - intros p latency w res parser e Hmiss Hfetch Hsel Hparse.
    assert (Hres : (_fetchOrUseCached ds p latency w).2 = Fail e).
    { unfold _fetchOrUseCached. rewrite (issue_miss ds p w Hmiss).
      rewrite Hfetch. simpl. now rewrite Hsel, Hparse. }
    split; [exact Hres|exact (Hawait _ _ _ _ Hres)].
Qed.


End PipelineFacts.

(** ** The event loop of a query *)

Section QueryFacts.
Context `{Collaborators}.

Lemma issue_all_shape ds qts w :
  Forall2 (fun qt s => exists pd, s = Waiting qt pd) qts (issue_all ds qts w).2.
Proof.
  revert w. induction qts as [|qt rest IH]; intros w; simpl.
  - constructor.
  - destruct (issue ds (req qt) w) as [w1 pd].
    specialize (IH w1). destruct (issue_all ds rest w1) as [w2 tl].
    simpl in *. constructor; eauto.
Qed.

Lemma issue_all_steps ds qts w : rtc step w (issue_all ds qts w).1.
Proof.
  revert w. induction qts as [|qt rest IH]; intros w; simpl.
  - reflexivity.
  - pose proof (step_issue ds (req qt) w) as Hs.
    destruct (issue ds (req qt) w) as [w1 pd].
    specialize (IH w1). destruct (issue_all ds rest w1) as [w2 tl].
    simpl in *. eapply rtc_l; eauto.
Qed.

Lemma callback_steps w w' : rtc callback_step w w' -> rtc step w w'.
Proof.
  induction 1 as [|w1 w2 w3 Hs _ IH]; [reflexivity|].
  eapply rtc_l; [apply step_callback, Hs|exact IH].
Qed.

(** What one settlement does to the join. *)
Lemma complete_cases ds i w j :
  (complete ds i (w, j) = (w, j) /\
   forall qt pd, slots j !! i <> Some (Waiting qt pd))
  \/
  (exists qt pd,
     slots j !! i = Some (Waiting qt pd) /\
     complete ds i (w, j) =
       ((settle ds pd w).1,
        {| slots := <[i := Settled (target_result ds (Waiting qt pd))]> (slots j);
           rejection := match rejection j, target_result ds (Waiting qt pd) with
                        | None, Fail e => Some e
                        | first, _ => first
                        end |})).
Proof.
  unfold complete. destruct (slots j !! i) as [[qt pd|r]|] eqn:Hi.
  - right. exists qt, pd. split; [reflexivity|].
    pose proof (settle_result ds pd w) as Hr.
    destruct (settle ds pd w) as [w1 r]. simpl in *. now subst r.
  - left. split; [reflexivity|]. congruence.
  - left. split; [reflexivity|]. congruence.
Qed.

Lemma complete_steps ds i st : rtc callback_step st.1 (complete ds i st).1.
Proof.
  destruct st as [w j].
  destruct (complete_cases ds i w j) as [[-> _]|(qt & pd & _ & ->)]; simpl.
  - reflexivity.
  - apply rtc_once, step_settle.
Qed.

Lemma complete_length ds i st :
  List.length (slots (complete ds i st).2) = List.length (slots st.2).
Proof.
  destruct st as [w j].
  destruct (complete_cases ds i w j) as [[-> _]|(qt & pd & _ & ->)]; simpl.
  - reflexivity.
  - apply length_insert.
Qed.

Lemma complete_inv ds init i st :
  join_inv ds init st.2 -> join_inv ds init (complete ds i st).2.
Proof.
  destruct st as [w j]. intros [Hprog Hrej].
  destruct (complete_cases ds i w j) as [[-> _]|(qt & pd & Hi & ->)];
    [split; assumption|].
  unfold join_inv. cbn [snd slots rejection] in *.
  set (r := target_result ds (Waiting qt pd)) in *.
  assert (Hlt : (i < List.length (slots j))%nat) by (eapply lookup_lt_Some; eauto).
  split.
  - apply Forall2_same_length_lookup. apply Forall2_same_length_lookup in Hprog
      as [Hlen Hall].
    split; [now rewrite length_insert|].
    intros k s0 s Hs0 Hs. destruct (decide (k = i)) as [->|Hne].
    + rewrite list_lookup_insert_eq in Hs by assumption. injection Hs as <-.
      right. destruct (Hall i s0 _ Hs0 Hi) as [E|E]; [|discriminate].
      now subst s0.
    + rewrite list_lookup_insert_ne in Hs by congruence. eauto.
  - assert (Hkeep : forall e k, slots j !! k = Some (Settled (Fail e)) ->
                     <[i := Settled r]> (slots j) !! k = Some (Settled (Fail e))).
    { intros e k Hk. rewrite list_lookup_insert_ne; [assumption|].
      intros ->. congruence. }
    unfold rejection_ok in *. destruct (rejection j) as [e0|].
    + destruct Hrej as [k Hk]. exists k. eauto.
    + destruct r as [v|e] eqn:Hr.
      * intros k e Hk. destruct (decide (k = i)) as [->|Hne].
        -- rewrite list_lookup_insert_eq in Hk by assumption. discriminate.
        -- rewrite list_lookup_insert_ne in Hk by congruence. eapply Hrej; eauto.
      * exists i. now rewrite list_lookup_insert_eq.
Qed.

Lemma complete_settled_below ds a st :
  settled_below a (slots st.2) ->
  settled_below (S a) (slots (complete ds a st).2).
Proof.
  destruct st as [w j]. intros Hbelow i s Hi Hs.
  destruct (complete_cases ds a w j) as [[E Hnot]|(qt & pd & Ha & E)];
    rewrite E in Hs; simpl in *.
  - destruct (decide (i = a)) as [->|Hne].
    + destruct s as [qt pd|r]; [|eauto]. exfalso. eapply Hnot; eauto.
    + apply (Hbelow i); [lia|assumption].
  - destruct (decide (i = a)) as [->|Hne].
    + rewrite list_lookup_insert_eq in Hs by (eapply lookup_lt_Some; eauto).
      injection Hs as <-. eauto.
    + rewrite list_lookup_insert_ne in Hs by congruence.
      apply (Hbelow i); [lia|assumption].
Qed.

Lemma drain_from ds init n a st :
  join_inv ds init st.2 ->
  settled_below a (slots st.2) ->
  let st' := fold_left (fun st i => complete ds i st) (seq a n) st in
  join_inv ds init st'.2 /\ settled_below (a + n) (slots st'.2) /\
  rtc callback_step st.1 st'.1.
Proof.
  revert a st. induction n as [|n IH]; intros a st Hinv Hbelow; simpl.
  - rewrite Nat.add_0_r. split; [assumption|]. split; [assumption|reflexivity].
  - destruct (IH (S a) (complete ds a st)) as (Hinv' & Hbelow' & Hsteps).
    + now apply complete_inv.
    + now apply complete_settled_below.
    + replace (a + S n)%nat with (S a + n)%nat by lia.
      split; [assumption|]. split; [assumption|].
      etrans; [apply complete_steps|exact Hsteps].
Qed.

Lemma run_schedule_inv ds init sched st :
  join_inv ds init st.2 ->
  join_inv ds init (run_schedule ds sched st).2 /\
  rtc callback_step st.1 (run_schedule ds sched st).1.
Proof.
  unfold run_schedule. revert st.
  induction sched as [|[i dt] sched IH]; intros [w j] Hinv; simpl.
  - split; [assumption|reflexivity].
  - destruct (IH (complete ds i (elapse dt w, j))) as [Hinv' Hsteps].
    + now apply (complete_inv ds init i (elapse dt w, j)).
    + split; [assumption|].
      eapply rtc_l; [apply (step_elapse dt w)|].
      etrans; [apply (complete_steps ds i (elapse dt w, j))|exact Hsteps].
Qed.

(** Whatever the schedule, once every promise has settled the join holds the
    schedule-free value of each promise, in the order of creation. *)
Lemma event_loop ds sched w init :
  Forall (fun s => exists qt pd, s = Waiting qt pd) init ->
  let st := drain ds (run_schedule ds sched (w, {| slots := init; rejection := None |})) in
  slots st.2 = List.map (fun s => Settled (target_result ds s)) init /\
  rejection_ok (slots st.2) (rejection st.2) /\
  rtc callback_step w st.1.
Proof.
  intros Hwait st. subst st.
  set (j0 := {| slots := init; rejection := None |}).
  assert (Hinv0 : join_inv ds init j0).
  { split; simpl.
    - apply Forall2_same_length_lookup. split; [reflexivity|].
      intros k s0 s Hs0 Hs. left. congruence.
    - intros k e Hk. rewrite Forall_lookup in Hwait.
      destruct (Hwait k _ Hk) as (qt & pd & [=]). }
  destruct (run_schedule_inv ds init sched (w, j0) Hinv0) as [Hinv1 Hsteps1].
  set (st1 := run_schedule ds sched (w, j0)) in *.
  destruct (drain_from ds init (List.length (slots st1.2)) 0 st1 Hinv1)
    as ([Hprog Hrej] & Hbelow & Hsteps2).
  { intros i s Hi. lia. }
  fold (drain ds st1) in Hprog, Hrej, Hbelow, Hsteps2.
  split; [|split; [assumption|etrans; eassumption]].
  apply Forall2_same_length_lookup in Hprog as [Hlen Hall].
  apply list_eq_same_length with (n := List.length init);
    [now rewrite length_map|now symmetry|].
  intros k s s' Hk Hs Hs'.
  rewrite list_lookup_fmap in Hs'.
  destruct (init !! k) as [s0|] eqn:Hs0; [|discriminate].
  injection Hs' as <-.
  destruct (Hbelow k s) as [r ->]; [|assumption|].
  { simpl. apply lookup_lt_Some in Hs.
    destruct Hinv1 as [Hp1 _]. apply Forall2_length in Hp1. lia. }
  destruct (Hall k s0 _ Hs0 Hs) as [E|E]; [|assumption].
  subst s0. reflexivity.
Qed.

Lemma callback_steps_log w w' : rtc callback_step w w' -> fetch_log w' = fetch_log w.
Proof.
  induction 1 as [|w1 w2 w3 Hs _ IH]; [reflexivity|].
  rewrite IH. destruct Hs; [apply settle_log|reflexivity].
Qed.

Lemma issue_all_log ds qts w :
  exists calls,
    fetch_log (issue_all ds qts w).1 = (fetch_log w ++ calls)%list /\
    forall c, c ∈ calls -> exists qt, qt ∈ qts /\ c = (req qt, isBinary (req qt)).
Proof.
  revert w. induction qts as [|qt rest IH]; intros w; simpl.
  - exists []. split; [now rewrite app_nil_r|]. intros c Hc. inversion Hc.
  - destruct (issue_cases ds (req qt) w) as [[tb E]|E]; rewrite E;
      [destruct (IH w) as (calls & Hlog & Hcalls)
      |destruct (IH (log_fetch (req qt, isBinary (req qt)) w))
         as (calls & Hlog & Hcalls)];
      destruct (issue_all ds rest _) as [w2 tl]; simpl in *.
    + exists calls. split; [assumption|]. intros c Hc.
      destruct (Hcalls c Hc) as (qt' & Hin & ->). exists qt'.
      split; [now right|reflexivity].
    + exists ((req qt, isBinary (req qt)) :: calls).
      split; [now rewrite Hlog, <- app_assoc|]. intros c Hc.
      apply elem_of_cons in Hc as [->|Hc].
      * exists qt. split; [now left|reflexivity].
      * destruct (Hcalls c Hc) as (qt' & Hin & ->). exists qt'.
        split; [now right|reflexivity].
Qed.

(** The two ways a query ends: at once when no target is left, otherwise with
    the join of the schedule-free values of its promises. *)
Lemma query_cases ds options sched w :
  (queryTargets options = [] /\ query ds options sched w = (w, Ok {| data := [] |}))
  \/
  (queryTargets options <> [] /\
   exists w2 rej,
     query ds options sched w =
       (w2, join_result
              {| slots := List.map (fun s => Settled (target_result ds s))
                            (queries_of ds options w);
                 rejection := rej |}) /\
     rejection_ok
       (List.map (fun s => Settled (target_result ds s)) (queries_of ds options w))
       rej /\
     rtc callback_step (issue_all ds (queryTargets options) w).1 w2).
Proof.
  unfold query, queries_of. destruct (queryTargets options) as [|qt qts] eqn:Hq.
  - left. split; reflexivity.
  - right. split; [discriminate|].
    assert (Hne : qt :: qts <> []) by discriminate.
    revert Hne. generalize (qt :: qts). clear Hq qt qts. intros qts Hne.
    destruct (Nat.eqb_spec (List.length qts) 0) as [E|_];
      [apply length_zero_iff_nil in E; contradiction|].
    pose proof (issue_all_shape ds qts w) as Hshape.
    destruct (issue_all ds qts w) as [w1 queries]. simpl in *.
    destruct (event_loop ds sched w1 queries) as (Hslots & Hrej & Hsteps).
    { apply Forall_lookup. intros k s Hs.
      destruct (Forall2_lookup_r _ _ _ _ _ Hshape Hs) as (qt & _ & pd & ->).
      eauto. }
    destruct (drain ds _) as [w2 [sl rej]]. simpl in *. subst sl.
    exists w2, rej. auto.
Qed.

Lemma query_steps ds options sched w : rtc step w (query ds options sched w).1.
Proof.
  destruct (query_cases ds options sched w)
    as [[_ ->]|(_ & w2 & rej & -> & _ & Hsteps)]; simpl.
  - reflexivity.
  - etrans; [apply issue_all_steps|apply callback_steps, Hsteps].
Qed.

Lemma fold_left_push {A B} (f : A -> B) (l : list A) (acc : list B) :
  fold_left (fun (ddd : list B) x => (ddd ++ [f x])%list) l acc
  = (acc ++ List.map f l)%list.
Proof.
  revert acc. induction l as [|x l IH]; intros acc; simpl.
  - now rewrite app_nil_r.
  - rewrite IH. now rewrite <- app_assoc.
Qed.

(** The array built by the [forEach] loop, once flattened, is the
    contribution of the target. *)
Lemma on_table_contribution target tb v :
  on_table target tb = Ok v ->
  flattenDeep [v] = contribution target tb.
Proof.
  unfold on_table, contribution, flattenDeep. simpl. rewrite app_nil_r.
  destruct (changes target).
  - destruct (processChanges tb) as [info|e]; simpl; [|discriminate].
    intros [= <-]. now rewrite fold_left_push.
  - now intros [= <-].
Qed.

Lemma flattenDeep_cons v vs : flattenDeep (v :: vs) = (flattenDeep [v] ++ flattenDeep vs)%list.
Proof. unfold flattenDeep. simpl. now rewrite app_nil_r. Qed.

Lemma flatten_contributions ds kept queries tables :
  Forall2 (fun target s => exists r pd, s = Waiting {| queued := target; req := r |} pd)
    kept queries ->
  Forall2 (fun s tb => slot_table ds s = Ok tb /\ exists v, target_result ds s = Ok v)
    queries tables ->
  rejection_ok (List.map (fun s => Settled (target_result ds s)) queries) None /\
  flattenDeep (fulfilled (List.map (fun s => Settled (target_result ds s)) queries))
  = flat_map (fun x => contribution x.1 x.2) (zip kept tables).
Proof.
  intros Hshape. revert tables.
  induction Hshape as [|target s kept queries (r & pd & ->) _ IH];
    intros tables Hok.
  - apply Forall2_nil_inv_l in Hok as ->. split; [|reflexivity].
    intros k e Hk. destruct k; discriminate.
  - apply Forall2_cons_inv_l in Hok as (tb & tables' & [Htb [v Hv]] & Hok & ->).
    destruct (IH tables' Hok) as [Hrej Hflat]. simpl in Htb, Hv |- *.
    rewrite Htb in Hv. simpl in Hv. rewrite Htb. simpl. rewrite Hv. split.
    + intros [|k] e Hk; simpl in Hk; [discriminate|]. eapply Hrej; eauto.
    + change ([v] ++ ?l)%list with (v :: l).
      rewrite flattenDeep_cons, Hflat.
      now rewrite (on_table_contribution _ _ _ Hv).
Qed.

Lemma queries_shape ds options w :
  Forall2 (fun target s => exists r pd, s = Waiting {| queued := target; req := r |} pd)
    (List.filter has_path (targets options)) (queries_of ds options w).
Proof.
  unfold queries_of, queryTargets.
  pose proof (issue_all_shape ds
    (List.map
       (fun target =>
          {| queued := target;
             req := templateSrv_replace (default "" (target_path target))
                      (<["range" := getTimeFilter options]> (scopedVars options)) |})
       (List.filter has_path (targets options))) w) as Hshape.
  apply Forall2_fmap_l in Hshape.
  eapply Forall2_impl; [exact Hshape|]. simpl. intros target s [pd ->]. eauto.
Qed.

(** C6: when every target resolves, the [data] of the response is the
    concatenation, in the order of the targets that have a path, of what
    each target contributes: with the changes flag one entry per name of
    the series order, in that order, carrying the name as target and alias
    and the datapoints the series map holds for the name; without the flag
    the raw table.  This holds for every schedule. *)
Theorem query_data_order ds options sched w tables :
  Forall2 (fun s tb => slot_table ds s = Ok tb /\ exists v, target_result ds s = Ok v)
    (queries_of ds options w) tables ->
  let kept := List.filter has_path (targets options) in
  Forall2 (fun target s => exists r pd, s = Waiting {| queued := target; req := r |} pd)
    kept (queries_of ds options w) /\
  (query ds options sched w).2 =
    Ok {| data := flat_map (fun x => contribution x.1 x.2) (zip kept tables) |}.
Proof.
  intros Hok kept. pose proof (queries_shape ds options w) as Hshape.
  split; [exact Hshape|].
  destruct (flatten_contributions ds _ _ _ Hshape Hok) as [Hnone Hflat].
  destruct (query_cases ds options sched w)
    as [[Hq ->]|(_ & w2 & rej & -> & Hrej & _)]; simpl.
  - unfold kept. unfold queryTargets in Hq. apply map_eq_nil in Hq.
    now rewrite Hq.
  - destruct rej as [e|].
    + destruct Hrej as [k Hk]. exfalso. eapply Hnone; eauto.
    + unfold join_result. simpl. now rewrite Hflat.
Qed.

Lemma target_fails_result ds s e : target_fails ds s e -> target_result ds s = Fail e.
Proof.
  intros [qt p avro e'|qt p avro res parser e' Hsel Hparse|qt pd tb e' Htb Hch Hpc];
    simpl.
  - reflexivity.
  - now rewrite Hsel, Hparse.
  - rewrite Htb. simpl. unfold on_table. now rewrite Hch, Hpc.
Qed.

(** With every parser installed, a rejected promise of a target is one of
    the three failures. *)
Lemma target_result_fails st bs ds qt pd e :
  constructor st bs = Ok ds ->
  target_result ds (Waiting qt pd) = Fail e -> target_fails ds (Waiting qt pd) e.
Proof.
  intros Hds. simpl. destruct (pending_table ds pd) as [tb|e'] eqn:Hpt; simpl.
  - intros Ht. unfold on_table in Ht.
    destruct (changes (queued qt)) eqn:Hch; [|discriminate].
    destruct (processChanges tb) as [info|e'] eqn:Hpc; [discriminate|].
    simpl in Ht. injection Ht as <-. eapply transform_throws; eauto.
  - intros [= ->]. destruct pd as [tb|p avro [res|e']]; simpl in Hpt.
    + discriminate.
    + destruct (select_parser_defined st bs ds (headers res !! "content-type")
                  avro Hds) as [parser Hsel].
      rewrite Hsel in Hpt. eapply parser_throws; eauto.
    + injection Hpt as ->. constructor.
Qed.

(** C5: if the promise of any one target of a query is rejected, because its
    fetch is rejected, its parser throws or its transform throws, then for
    every schedule the query is rejected, with the reason of one of its
    failed targets: it yields no data at all, whatever the other targets
    resolved to. *)
Theorem query_all_or_nothing ds options sched w s e :
  s ∈ queries_of ds options w ->
  target_fails ds s e ->
  exists e',
    (query ds options sched w).2 = Fail e' /\
    (forall response, (query ds options sched w).2 <> Ok response) /\
    exists s', s' ∈ queries_of ds options w /\ target_result ds s' = Fail e'.
Proof.
  intros Hin Hfail. apply target_fails_result in Hfail.
  destruct (query_cases ds options sched w)
    as [[Hq _]|(_ & w2 & rej & -> & Hrej & _)].
  - unfold queries_of in Hin. rewrite Hq in Hin. inversion Hin.
  - apply list_elem_of_lookup in Hin as [k Hk]. destruct rej as [e'|].
    + exists e'. split; [reflexivity|]. split; [discriminate|].
      destruct Hrej as [k' Hk']. rewrite list_lookup_fmap in Hk'.
      destruct (queries_of ds options w !! k') as [s'|] eqn:Hs'; [|discriminate].
      injection Hk' as Hk'. exists s'. split; [|assumption].
      eapply list_elem_of_lookup_2; eauto.
    + exfalso. apply (Hrej k e). rewrite list_lookup_fmap, Hk. simpl.
      now rewrite Hfail.
Qed.

(** C2: a query all of whose targets have an absent or empty path resolves
    at once with an empty [data] list in an unchanged world, so that no
    backend is called.  In any query the targets without a path are dropped
    first: the query behaves as the query on the remaining targets, and every
    backend call it makes is for the request of a target that has a path. *)
Theorem query_empty_targets ds options sched w :
  (Forall (fun t => target_path t = None \/ target_path t = Some "") (targets options) ->
   query ds options sched w = (w, Ok {| data := [] |}))
  /\
  query ds options sched w =
    query ds {| targets := List.filter has_path (targets options);
                scopedVars := scopedVars options |} sched w
  /\
  exists calls,
    fetch_log (query ds options sched w).1 = (fetch_log w ++ calls)%list /\
    forall c, c ∈ calls ->
      exists t, t ∈ targets options /\ has_path t = true /\
        c.1 = templateSrv_replace (default "" (target_path t))
                (<["range" := "YYYYMMDD"]> (scopedVars options)).
Proof.
  split; [|split].
  - intros Hall.
    assert (Hnil : List.filter has_path (targets options) = []).
    { induction Hall as [|t l Ht _ IH]; [reflexivity|]. simpl.
      unfold has_path at 1. destruct Ht as [-> | ->]; exact IH. }
    unfold query, queryTargets. now rewrite Hnil.
  - unfold query, queryTargets. simpl.
    assert (Hidem : forall l, List.filter has_path (List.filter has_path l)
                              = List.filter has_path l).
    { induction l as [|t l IH]; [reflexivity|]. simpl.
      destruct (has_path t) eqn:Ht; simpl; [rewrite Ht|]; now rewrite IH. }
    now rewrite Hidem.
  - destruct (query_cases ds options sched w)
      as [[_ ->]|(_ & w2 & rej & -> & _ & Hsteps)]; simpl.
    + exists []. split; [now rewrite app_nil_r|]. intros c Hc. inversion Hc.
    + rewrite (callback_steps_log _ _ Hsteps).
      destruct (issue_all_log ds (queryTargets options) w) as (calls & Hlog & Hcalls).
      exists calls. split; [assumption|]. intros c Hc.
      destruct (Hcalls c Hc) as (qt & Hqt & ->).
      unfold queryTargets in Hqt. apply list_elem_of_In, in_map_iff in Hqt
        as (t & <- & Ht). apply filter_In in Ht as [Hin Hp].
      exists t. split; [now apply list_elem_of_In|]. split; [assumption|reflexivity].
Qed.

(** ** The shared cache *)

Lemma issue_hit_inv ds p w w' tb :
  issue ds p w = (w', Hit tb) ->
  w' = w /\ exists ct, cache w !! p = Some ct /\ table ct = Some tb.
Proof.
  unfold issue. destruct (cache w !! p) as [[q ts [tb'|]]|]; try discriminate.
  intros [= <- <-]. split; [reflexivity|]. eexists. split; reflexivity.
Qed.

Lemma settle_miss_ok ds p avro answer w tb :
  (settle ds (Miss p avro answer) w).2 = Ok tb ->
  exists t, table t = Some tb /\
            cache (settle ds (Miss p avro answer) w).1 = <[p := t]> (cache w).
Proof.
  simpl. destruct answer as [res|e]; [|discriminate].
  destruct (select_parser ds _ avro); [|discriminate].
  destruct (parser_parse _ res _) as [tb'|e]; [|discriminate].
  simpl. intros [= ->]. eexists. split; [|reflexivity]. reflexivity.
Qed.

Lemma step_dom w w' : step w w' -> dom (cache w) ⊆ dom (cache w').
Proof.
  intros [ds p w0|w0 w1 [ds pd w2|dt w2]].
  - now rewrite issue_cache.
  - destruct (settle_cache ds pd w2) as [->|(p & t & tb & _ & _ & _ & ->)];
      [reflexivity|].
    rewrite dom_insert. set_solver.
  - reflexivity.
Qed.

(** C8: the cache belongs to the world, not to a datasource: what one
    instance has fetched, any other instance finds without calling its
    backend.  Every put overwrites: whenever the callback of a fetch has
    parsed a table, in whatever world it runs, the cache then maps the path
    to the new entry (the path, the new table, the clock after the parse),
    also when the path already held an entry, complete or not; the other
    paths are left alone, and the cache grows by one entry when the path was
    absent and not at all when it was present, so that each path has at most
    one entry.  The cache changes in no other way, and no step of any
    instance, no query and no passing of time removes an entry. *)
Theorem cache_shared_one_entry_no_eviction :
  (forall ds1 ds2 p latency1 latency2 w tb,
     (_fetchOrUseCached ds1 p latency1 w).2 = Ok tb ->
     let w1 := (_fetchOrUseCached ds1 p latency1 w).1 in
     _fetchOrUseCached ds2 p latency2 w1 = (w1, Ok tb))
  /\
  (forall ds p avro res parser tb w,
     select_parser ds (headers res !! "content-type") avro = Some parser ->
     parser_parse parser res (headers res !! "content-type") = Ok tb ->
     let w' := (settle ds (Miss p avro (Ok res)) w).1 in
     let t := {| path := p; timestamp := now w + parse_millis parser res;
                 table := Some tb |} in
     now w' = now w + parse_millis parser res /\
     cache w' = <[p := t]> (cache w) /\
     cache w' !! p = Some t /\
     (forall q, q <> p -> cache w' !! q = cache w !! q) /\
     (is_Some (cache w !! p) -> size (cache w') = size (cache w)) /\
     (cache w !! p = None -> size (cache w') = S (size (cache w))))
  /\
  (forall ds pd w,
     let w' := (settle ds pd w).1 in
     cache w' = cache w \/
     exists p t,
       cache w' !! p = Some t /\
       (forall q, q <> p -> cache w' !! q = cache w !! q) /\
       (is_Some (cache w !! p) -> size (cache w') = size (cache w)))
  /\
  (forall w, NoDup (map_to_list (cache w)).*1)
  /\
  (forall w w', rtc step w w' -> dom (cache w) ⊆ dom (cache w'))
  /\
  (forall ds options sched w,
     dom (cache w) ⊆ dom (cache (query ds options sched w).1)).
Proof.
  assert (Hmono : forall w w', rtc step w w' -> dom (cache w) ⊆ dom (cache w')).
  { induction 1 as [|w1 w2 w3 Hs _ IH]; [reflexivity|].
    etrans; [apply step_dom, Hs|exact IH]. }
  repeat split.
  - intros ds1 ds2 p latency1 latency2 w tb Hres w1.
    assert (exists ct, cache w1 !! p = Some ct /\ table ct = Some tb) as (ct & Hc & Ht).
    { subst w1. revert Hres. unfold _fetchOrUseCached.
      destruct (issue ds1 p w) as [w0 pd] eqn:Hi. destruct pd as [tb'|q avro answer].
      - apply issue_hit_inv in Hi as [-> (ct & Hc & Ht)]. simpl.
        intros [= <-]. eauto.
      - destruct (issue_cases ds1 p w) as [[tb' E]|E]; rewrite Hi in E;
          [discriminate|]. injection E as -> -> _ _.
        intros Hres. apply settle_miss_ok in Hres as (t & Ht & ->).
        exists t. split; [apply lookup_insert_eq|assumption]. }
    unfold _fetchOrUseCached. now rewrite (issue_hit ds2 p w1 ct tb Hc Ht).
  - rewrite (settle_put ds p avro res parser tb w) by assumption. reflexivity.
  - rewrite (settle_put ds p avro res parser tb w) by assumption. reflexivity.
  - rewrite (settle_put ds p avro res parser tb w) by assumption.
    apply lookup_insert_eq.
  - intros q Hq. rewrite (settle_put ds p avro res parser tb w) by assumption.
    now apply lookup_insert_ne.
  - intros [t0 Ht0]. rewrite (settle_put ds p avro res parser tb w) by assumption.
    cbn [fst cache set_cache elapse now].
    rewrite <- (insert_delete_id (cache w) p t0 Ht0).
    rewrite insert_insert_eq.
    rewrite !map_size_insert_None by apply lookup_delete_eq. reflexivity.
  - intros Hnone. rewrite (settle_put ds p avro res parser tb w) by assumption.
    cbn [fst cache set_cache elapse now].
    now apply map_size_insert_None.
  - intros ds pd w w'. subst w'.
    destruct (settle_cache ds pd w) as [E|(p & t & tb & _ & _ & _ & E)];
      [now left|right].
    exists p, t. rewrite E. repeat split.
    + apply lookup_insert_eq.
    + intros q Hq. now apply lookup_insert_ne.
    + intros [t0 Ht0]. rewrite <- (insert_delete_id (cache w) p t0 Ht0).
      rewrite insert_insert_eq.
      rewrite !map_size_insert_None by apply lookup_delete_eq. reflexivity.
  - intros w. apply NoDup_fst_map_to_list.
  - exact Hmono.
  - intros ds options sched w. apply Hmono, query_steps.
Qed.

End QueryFacts.

(** ** Connectivity check *)

Section ConnectivityFacts.
Context `{Collaborators}.

(** Whenever the backend resolves, or rejects with a value other than
    [undefined] and [null], the check resolves with a status object. *)
Lemma testDatasource_settles ds :
  match fs_list (fs ds) "" with
  | Ok dir =>
      testDatasource ds =
        Ok {| status := "success";
              message := "Root Contains " ++ pretty (List.length (files dir)) ++ " Files" |}
  | Fail JsUndefined | Fail JsNull => exists e, testDatasource ds = Fail e
  | Fail err =>
      exists msg, testDatasource ds = Ok {| status := "error"; message := msg |} /\
        (cancelled_and_err err = Ok true ->
         msg = "Error making HTTP request.  Check the javascrit console for more information") /\
        (cancelled_and_err err = Ok false -> msg = "Error: " ++ to_string err)
  end.
Proof.
  unfold testDatasource. destruct (fs_list (fs ds) "") as [dir|[| |s|text c e]]; simpl.
  - reflexivity.
  - eauto.
  - eauto.
  - eexists. split; [reflexivity|]. split; [discriminate|reflexivity].
  - destruct (c && e); eexists; (split; [reflexivity|]); split;
      try reflexivity; discriminate.
Qed.

End ConnectivityFacts.

(** * Further properties *)

(** ** Which backend the constructor installs *)

Lemma registry_get_unregistered key :
  key <> "local" -> key <> "nginx" -> key <> "s3" ->
  registry_get key =
    if bool_decide (key ∈ Object_prototype)
    then Some (if String.eqb key "constructor" then ObjectFunction else PrototypeMember)
    else None.
Proof.
  intros Hl Hn Hs. unfold registry_get, registry.
  rewrite lookup_insert_ne by congruence.
  rewrite lookup_insert_ne by congruence.
  rewrite lookup_singleton_ne by congruence. reflexivity.
Qed.

Lemma registered_not_inherited key :
  key ∈ Object_prototype -> key <> "local" /\ key <> "nginx" /\ key <> "s3".
Proof.
  intros Hin. repeat split; intros ->;
    apply (bool_decide_pack _) in Hin; vm_compute in Hin; exact Hin.
Qed.

Lemma constructor_backend st bs :
  let key := discriminator st in
  match constructor st bs with
  | Ok ds =>
      fs ds = (if decide (key = "local") then LocalFileSystem
               else if decide (key = "nginx") then NginxFileSystem
               else if decide (key = "s3") then S3FileSystem
               else if decide (key = "constructor") then PlainObject
               else UnknownFileSystem) /\
      (key ∈ Object_prototype -> key = "constructor" /\ descriptors_only bs = true) /\
      interval ds = timeInterval (default {| timeInterval := None; type := None |}
                                    (jsonData st))
  | Fail e =>
      key ∈ Object_prototype /\ (key = "constructor" -> descriptors_only bs = false)
  end.
Proof.
  intros key. unfold constructor. fold (discriminator st). fold key.
  generalize key. clear key. intros key.
  destruct (decide (key = "local")) as [->|Hl];
    [simpl; split; [reflexivity|split; [|reflexivity]];
     intros Hin; apply registered_not_inherited in Hin; tauto|].
  destruct (decide (key = "nginx")) as [->|Hn];
    [simpl; split; [reflexivity|split; [|reflexivity]];
     intros Hin; apply registered_not_inherited in Hin; tauto|].
  destruct (decide (key = "s3")) as [->|Hs];
    [simpl; split; [reflexivity|split; [|reflexivity]];
     intros Hin; apply registered_not_inherited in Hin; tauto|].
  rewrite (registry_get_unregistered key Hl Hn Hs).
  destruct (decide (key = "constructor")) as [->|Hc].
  - simpl. destruct (descriptors_only bs); simpl.
    + split; [reflexivity|]. split; [auto|reflexivity].
    + split; [|reflexivity]. apply (bool_decide_unpack _). vm_compute. exact I.
  - apply String.eqb_neq in Hc. rewrite Hc.
    destruct (bool_decide (key ∈ Object_prototype)) eqn:Hp; simpl.
    + apply bool_decide_eq_true in Hp. split; [assumption|].
      apply String.eqb_neq in Hc. congruence.
    + apply bool_decide_eq_false in Hp. split; [reflexivity|].
      split; [contradiction|reflexivity].
Qed.

(** X1: a constructed datasource holds the local, NGINX or S3 file system
    exactly for the discriminators "local", "nginx" and "s3"; for the
    discriminator "constructor" (when construction succeeds at all) it holds
    a plain object that is no file system; for every other discriminator,
    an absent one included, it holds the unknown file system.  Its interval
    is the configured time interval. *)
Theorem constructor_selects_backend st bs ds :
  constructor st bs = Ok ds ->
  getFileSystem ds =
    (if decide (discriminator st = "local") then LocalFileSystem
     else if decide (discriminator st = "nginx") then NginxFileSystem
     else if decide (discriminator st = "s3") then S3FileSystem
     else if decide (discriminator st = "constructor") then PlainObject
     else UnknownFileSystem) /\
  interval ds = (jsonData st ≫= timeInterval).
Proof.
  intros Hds. pose proof (constructor_backend st bs) as Hb. simpl in Hb.
  rewrite Hds in Hb. destruct Hb as (Hfs & _ & Hint).
  split; [exact Hfs|]. rewrite Hint. now destruct (jsonData st).
Qed.

(** X2: the constructor throws exactly when the discriminator names a member
    of [Object.prototype], except that for "constructor" it throws only when
    [Object.create] rejects the properties of [backendSrv]; in every other
    case, whatever the settings, construction succeeds. *)
Theorem constructor_throws_iff st bs :
  (exists e, constructor st bs = Fail e) <->
  discriminator st ∈ Object_prototype /\
  (discriminator st = "constructor" -> descriptors_only bs = false).
Proof.
  pose proof (constructor_backend st bs) as Hb. simpl in Hb.
  destruct (constructor st bs) as [ds|e].
  - destruct Hb as (_ & Hproto & _). split.
    + intros [e [=]].
    + intros [Hin Hc]. destruct (Hproto Hin) as [Hk Hd].
      rewrite (Hc Hk) in Hd. discriminate.
  - split; [intros _; exact Hb|eauto].
Qed.

(** ** The extension of a path *)

Section ExtensionFacts.
Import JsString.

Lemma last_index_from_cases c l i found :
  ((c ∉ l) /\ last_index_from c l i found = found) \/
  (exists pre suf, l = (pre ++ c :: suf)%list /\ (c ∉ suf) /\
                   last_index_from c l i found = Some (i + List.length pre)%nat).
Proof.
  revert i found. induction l as [|a l IH]; intros i found; simpl.
  - left. split; [apply not_elem_of_nil|reflexivity].
  - destruct (IH (S i) (if Ascii.eqb a c then Some i else found))
      as [[Hnot ->]|(pre & suf & -> & Hsuf & ->)].
    + destruct (Ascii.eqb_spec a c) as [->|Hne].
      * right. exists [], l. simpl. rewrite Nat.add_0_r. auto.
      * left. split; [|reflexivity]. apply not_elem_of_cons. split; congruence.
    + right. exists (a :: pre), suf. simpl. split; [reflexivity|].
      split; [assumption|]. f_equal. lia.
Qed.

Lemma last_index_from_notin c l i found :
  c ∉ l -> last_index_from c l i found = found.
Proof.
  revert i found. induction l as [|a l IH]; intros i found Hnot; simpl.
  - reflexivity.
  - apply not_elem_of_cons in Hnot as [Hne Hnot]. rewrite IH by assumption.
    destruct (Ascii.eqb_spec a c); congruence.
Qed.

Lemma last_index_from_app c l1 l2 i found :
  last_index_from c (l1 ++ l2) i found
  = last_index_from c l2 (i + List.length l1)%nat (last_index_from c l1 i found).
Proof.
  revert i found. induction l1 as [|a l1 IH]; intros i found; simpl.
  - now rewrite Nat.add_0_r.
  - rewrite IH. f_equal. lia.
Qed.

(** The last occurrence, found. *)
Lemma last_index_at c pre suf :
  c ∉ suf -> last_index c (pre ++ c :: suf) = Some (List.length pre).
Proof.
  intros Hsuf. unfold last_index. rewrite last_index_from_app. simpl.
  rewrite Ascii.eqb_refl. now apply last_index_from_notin.
Qed.

Lemma last_index_none c l : c ∉ l -> last_index c l = None.
Proof. apply last_index_from_notin. Qed.

Lemma truncate_at_last_prefix c l : exists k, truncate_at_last c l = take k l.
Proof.
  unfold truncate_at_last. destruct (last_index c l) as [i|].
  - destruct (0 <? i)%nat; [eauto|]. exists (List.length l). now rewrite take_ge.
  - exists (List.length l). now rewrite take_ge.
Qed.

Lemma truncate_at_last_absent c l : c ∉ l -> truncate_at_last c l = l.
Proof. intros Hnot. unfold truncate_at_last. now rewrite last_index_none. Qed.

Lemma truncate_at_last_cut c pre suf :
  pre <> [] -> c ∉ suf -> truncate_at_last c (pre ++ c :: suf) = pre.
Proof.
  intros Hpre Hsuf. unfold truncate_at_last. rewrite last_index_at by assumption.
  destruct pre as [|a pre]; [contradiction|]. simpl Nat.ltb.
  now rewrite take_app_length.
Qed.

Lemma lower_char_fixes (c a : ascii) :
  c = "?"%char \/ c = "#"%char \/ c = "."%char ->
  Ascii.eqb (lower_char a) c = Ascii.eqb a c.
Proof.
  intros [-> | [-> | ->]];
    destruct a as [[] [] [] [] [] [] [] []]; reflexivity.
Qed.

Lemma lower_char_idem (a : ascii) : lower_char (lower_char a) = lower_char a.
Proof. destruct a as [[] [] [] [] [] [] [] []]; reflexivity. Qed.

Lemma last_index_from_lower c l i found :
  c = "?"%char \/ c = "#"%char \/ c = "."%char ->
  last_index_from c (List.map lower_char l) i found = last_index_from c l i found.
Proof.
  intros Hc. revert i found. induction l as [|a l IH]; intros i found; simpl.
  - reflexivity.
  - now rewrite IH, lower_char_fixes.
Qed.

Lemma truncate_at_last_lower c l :
  c = "?"%char \/ c = "#"%char \/ c = "."%char ->
  truncate_at_last c (List.map lower_char l)
  = List.map lower_char (truncate_at_last c l).
Proof.
  intros Hc. unfold truncate_at_last, last_index.
  rewrite last_index_from_lower by assumption.
  destruct (last_index_from c l 0 None) as [i|]; [|reflexivity].
  destruct (0 <? i)%nat; [|reflexivity].
  change (List.map lower_char) with (fmap (M := list) lower_char).
  now rewrite fmap_take.
Qed.

(** X3: a path whose only "." (if any) is its first character has the empty
    extension: names without a dot, and dot-files such as ".avro", are never
    taken for avro and are fetched as text. *)
Theorem extension_needs_inner_dot (a : ascii) (r : string) :
  "."%char ∉ chars r ->
  extension (String a r) = "" /\ isBinary (String a r) = false.
Proof.
  intros Hdot.
  assert (E : extension (String a r) = "").
  { rewrite extension_normalized. unfold normalized_extension.
    destruct (truncate_at_last_prefix "?" (chars (String a r))) as [k1 ->].
    destruct (truncate_at_last_prefix "#" (take k1 (chars (String a r)))) as [k2 ->].
    rewrite take_take. set (k := (k2 `min` k1)%nat). clearbody k.
    change (chars (String a r)) with (a :: chars r).
    destruct k as [|k]; [reflexivity|]. simpl take. unfold last_index.
    destruct (last_index_from_cases "." (a :: take k (chars r)) 0 None)
      as [[_ ->]|(pre & suf & Hl & _ & ->)]; [reflexivity|].
    destruct pre as [|b pre]; [reflexivity|]. exfalso.
    injection Hl as _ Hl. apply Hdot.
    rewrite <- (take_drop k (chars r)), Hl. rewrite !elem_of_app, elem_of_cons.
    auto. }
  split; [exact E|]. unfold isBinary, isAvro. now rewrite E.
Qed.

Lemma lower_char_ascii (c : ascii) :
  is_ascii c = true -> is_ascii (lower_char c) = true.
Proof. destruct c as [[] [] [] [] [] [] [] []]; intros E; first [exact E | reflexivity]. Qed.

Lemma lower_char_not_upper (c : ascii) : is_upper (lower_char c) = false.
Proof. destruct c as [[] [] [] [] [] [] [] []]; reflexivity. Qed.

Lemma truncate_at_last_ascii c l :
  Forall (fun x => is_ascii x = true) l ->
  Forall (fun x => is_ascii x = true) (truncate_at_last c l).
Proof.
  intros Hl. destruct (truncate_at_last_prefix c l) as [k ->].
  now apply Forall_take.
Qed.

(** X4: for a path of ASCII characters (code units below 128), the
    extension consists of ASCII characters none of which is an upper-case
    letter, contains no ".", and is left as it is by lower-casing. *)
Theorem extension_lowercase_dotless (p : string) :
  ascii_only p ->
  ascii_only (extension p) /\
  Forall (fun c => is_upper c = false) (chars (extension p)) /\
  ("."%char ∉ chars (extension p)) /\
  toLowerCase (extension p) = extension p.
Proof.
  intros Hp. unfold ascii_only in *.
  rewrite extension_normalized. unfold normalized_extension.
  assert (Hnorm_ascii :
    Forall (fun x => is_ascii x = true)
      (truncate_at_last "#" (truncate_at_last "?" (chars p))))
    by (now do 2 apply truncate_at_last_ascii).
  set (norm := truncate_at_last "#" (truncate_at_last "?" (chars p))) in *.
  unfold last_index.
  destruct (last_index_from_cases "." norm 0 None)
    as [[_ ->]|(pre & suf & Hnorm & Hsuf & ->)].
  - repeat split; try constructor. apply not_elem_of_nil.
  - simpl. destruct (0 <? List.length pre)%nat;
      [|repeat split; try constructor; apply not_elem_of_nil].
    rewrite Hnorm in *.
    replace (drop (S (List.length pre)) (pre ++ "."%char :: suf)) with suf
      by (change (pre ++ "."%char :: suf)%list with (pre ++ ["."%char] ++ suf)%list;
          rewrite app_assoc;
          rewrite drop_app_length'; [reflexivity|rewrite length_app; simpl; lia]).
    apply Forall_app in Hnorm_ascii as [_ Hsuf_ascii].
    apply Forall_cons in Hsuf_ascii as [_ Hsuf_ascii].
    rewrite chars_of_chars. split; [|split; [|split]].
    + apply Forall_forall. intros x Hin.
      apply list_elem_of_In, in_map_iff in Hin as (y & <- & Hin).
      apply lower_char_ascii. rewrite Forall_forall in Hsuf_ascii.
      apply Hsuf_ascii. now apply list_elem_of_In.
    + apply Forall_forall. intros x Hin.
      apply list_elem_of_In, in_map_iff in Hin as (y & <- & Hin).
      apply lower_char_not_upper.
    + intros Hin. apply Hsuf.
      apply list_elem_of_In, in_map_iff in Hin as (x & Hx & Hin).
      apply list_elem_of_In in Hin.
      pose proof (lower_char_fixes "." x (or_intror (or_intror eq_refl))) as Hfix.
      rewrite Hx, Ascii.eqb_refl in Hfix. symmetry in Hfix.
      apply Ascii.eqb_eq in Hfix. now subst x.
    + unfold toLowerCase. rewrite chars_of_chars. f_equal.
      rewrite List.map_map. apply List.map_ext. intros x. apply lower_char_idem.
Qed.

(** X5: the cuts are at the last "?" and the last "#".  For a non-empty path
    [p] that contains no "?": appending "?" and a query that contains no
    further "?" (a "#" and a fragment after it included) leaves the extension
    that of [p]; when [p] contains no "#" either, so does appending "#" and a
    fragment free of "#" and "?", and so does appending "#", a fragment free
    of "#", then "?" and a query free of "?". *)
Theorem extension_ignores_query_and_fragment (p q f : string) :
  p <> "" ->
  "?"%char ∉ chars p ->
  ("?"%char ∉ chars q -> extension (p ++ "?" ++ q) = extension p) /\
  ("?"%char ∉ chars q -> "?"%char ∉ chars f ->
   extension (p ++ "?" ++ q ++ "#" ++ f) = extension p) /\
  ("#"%char ∉ chars p -> "?"%char ∉ chars f -> "#"%char ∉ chars f ->
   extension (p ++ "#" ++ f) = extension p) /\
  ("#"%char ∉ chars p -> "#"%char ∉ chars f -> "?"%char ∉ chars q ->
   extension (p ++ "#" ++ f ++ "?" ++ q) = extension p).
Proof.
  intros Hp Hpq.
  assert (Hne : chars p <> []).
  { intros E. apply Hp. apply chars_inj. now rewrite E. }
  rewrite !extension_normalized. unfold normalized_extension.
  rewrite !chars_app. change (chars "?") with ["?"%char].
  change (chars "#") with ["#"%char]. simpl app.
  rewrite (truncate_at_last_absent "?" (chars p) Hpq).
  split; [|split; [|split]].
  - intros Hqq.
    now rewrite (truncate_at_last_cut "?" (chars p) (chars q) Hne Hqq).
  - intros Hqq Hfq.
    assert (Hsuf : "?"%char ∉ (chars q ++ "#"%char :: chars f)%list).
    { rewrite elem_of_app, elem_of_cons. intros [?|[?|?]]; [tauto|discriminate|tauto]. }
    now rewrite (truncate_at_last_cut "?" (chars p) _ Hne Hsuf).
  - intros Hph Hfq Hfh.
    assert (Hall : "?"%char ∉ (chars p ++ "#"%char :: chars f)%list).
    { rewrite elem_of_app, elem_of_cons. intros [?|[?|?]]; [tauto|discriminate|tauto]. }
    rewrite (truncate_at_last_absent "?" _ Hall).
    rewrite (truncate_at_last_cut "#" (chars p) (chars f) Hne Hfh).
    now rewrite (truncate_at_last_absent "#" (chars p) Hph).
  - intros Hph Hfh Hqq.
    replace (chars p ++ "#"%char :: chars f ++ "?"%char :: chars q)%list
      with ((chars p ++ "#"%char :: chars f) ++ "?"%char :: chars q)%list
      by (now rewrite <- app_assoc).
    rewrite (truncate_at_last_cut "?" (chars p ++ "#"%char :: chars f) (chars q));
      [|now destruct (chars p)|assumption].
    rewrite (truncate_at_last_cut "#" (chars p) (chars f) Hne Hfh).
    now rewrite (truncate_at_last_absent "#" (chars p) Hph).
Qed.

(** X6: for paths of ASCII characters (code units below 128) the extension
    does not depend on the case of the path: such a path and its lower-case
    form have the same extension, so two such paths that differ only in the
    case of their letters are both avro or both not. *)
Theorem extension_case_insensitive (p q : string) :
  ascii_only p -> ascii_only q ->
  extension (toLowerCase p) = extension p /\
  (toLowerCase p = toLowerCase q -> isAvro p = isAvro q).
Proof.
  intros _ _.
  assert (E : forall s, extension (toLowerCase s) = extension s).
  { intros s. rewrite !extension_normalized. unfold normalized_extension, toLowerCase.
    rewrite chars_of_chars.
    rewrite !truncate_at_last_lower by auto.
    set (norm := truncate_at_last "#" (truncate_at_last "?" (chars s))).
    unfold last_index. rewrite last_index_from_lower by auto.
    destruct (last_index_from "." norm 0 None) as [i|]; [|reflexivity].
    destruct (0 <? i)%nat; [|reflexivity]. f_equal.
    change (List.map lower_char) with (fmap (M := list) lower_char).
    rewrite <- fmap_drop, <- list_fmap_compose.
    apply list_fmap_ext. intros _ x _. apply lower_char_idem. }
  split; [apply E|]. intros Hpq. unfold isAvro.
  now rewrite <- (E p), <- (E q), Hpq.
Qed.

End ExtensionFacts.

(** ** Retries and the stability of cache entries *)

Section FurtherPipelineFacts.
Context `{Collaborators}.

Lemma is_cached_spec w p :
  is_cached w p = true <->
  exists ct tb, cache w !! p = Some ct /\ table ct = Some tb.
Proof.
  unfold is_cached. destruct (cache w !! p) as [[q ts [tb|]]|]; split;
    try discriminate; try (intros (ct & tb' & [= <-] & Ht); discriminate);
    try (intros (ct & tb' & [=] & _)).
  - intros _. eexists _, tb. split; reflexivity.
  - reflexivity.
Qed.

Lemma issue_is_cached ds p w :
  is_cached w p = true -> exists tb, issue ds p w = (w, Hit tb).
Proof.
  intros Hc. apply is_cached_spec in Hc as (ct & tb & Hc & Ht).
  exists tb. now apply (issue_hit ds p w ct tb).
Qed.

Lemma issue_not_cached ds p w :
  is_cached w p = false ->
  issue ds p w =
    (log_fetch (p, isBinary p) w,
     Miss p (isAvro p) (fs_fetch (fs ds) (fetch_log w) p (isBinary p))).
Proof.
  intros Hc. apply issue_miss. intros ct Hct.
  destruct (table ct) as [tb|] eqn:Ht; [|reflexivity].
  assert (is_cached w p = true) by (apply is_cached_spec; eauto). congruence.
Qed.

Lemma is_cached_same_cache w w' p :
  cache w' = cache w -> is_cached w' p = is_cached w p.
Proof. intros E. unfold is_cached. now rewrite E. Qed.

(** A settlement writes no other path than the one it was issued for. *)
Lemma settle_other ds q avro answer w p :
  p <> q -> cache (settle ds (Miss q avro answer) w).1 !! p = cache w !! p.
Proof.
  intros Hne. simpl. destruct answer as [res|e]; [|reflexivity].
  destruct (select_parser ds _ avro); [|reflexivity].
  destruct (parser_parse _ res _); [|reflexivity].
  simpl. now apply lookup_insert_ne.
Qed.

Lemma settle_keeps_cached ds pd w p :
  is_cached w p = true -> is_cached (settle ds pd w).1 p = true.
Proof.
  intros Hc. destruct (settle_cache ds pd w) as [E|(q & t & tb & _ & _ & Ht & E)].
  - now rewrite (is_cached_same_cache _ _ _ E).
  - destruct (decide (p = q)) as [->|Hne].
    + apply is_cached_spec. exists t, tb. rewrite E. split; [apply lookup_insert_eq|assumption].
    + unfold is_cached in *. rewrite E. now rewrite lookup_insert_ne by congruence.
Qed.

Lemma settle_caches_success ds p avro answer w tb :
  (settle ds (Miss p avro answer) w).2 = Ok tb ->
  is_cached (settle ds (Miss p avro answer) w).1 p = true.
Proof.
  intros Hok. apply settle_miss_ok in Hok as (t & Ht & E).
  apply is_cached_spec. exists t, tb. rewrite E. split; [apply lookup_insert_eq|assumption].
Qed.

(** X7: failures are not remembered.  After a call of [_fetchOrUseCached]
    that was rejected, the next call for the same path, by any instance,
    calls the backend again: the trace then holds two calls for the path. *)
Theorem failed_fetch_is_retried ds ds' p latency latency' w e :
  (_fetchOrUseCached ds p latency w).2 = Fail e ->
  let w1 := (_fetchOrUseCached ds p latency w).1 in
  fetch_log w1 = (fetch_log w ++ [(p, isBinary p)])%list /\
  fetch_log (_fetchOrUseCached ds' p latency' w1).1
  = (fetch_log w ++ [(p, isBinary p); (p, isBinary p)])%list.
Proof.
  intros Hfail w1.
  destruct (is_cached w p) eqn:Hc.
  { exfalso. destruct (issue_is_cached ds p w Hc) as [tb Hi].
    unfold _fetchOrUseCached in Hfail. rewrite Hi in Hfail. discriminate. }
  assert (Hlog : fetch_log w1 = (fetch_log w ++ [(p, isBinary p)])%list).
  { subst w1. unfold _fetchOrUseCached. rewrite (issue_not_cached ds p w Hc).
    now rewrite settle_log. }
  assert (Hcache : cache w1 = cache w).
  { subst w1. revert Hfail. unfold _fetchOrUseCached.
    rewrite (issue_not_cached ds p w Hc). intros Hfail.
    now rewrite (settle_fail_cache _ _ _ _ Hfail). }
  split; [exact Hlog|].
  unfold _fetchOrUseCached at 1.
  rewrite (issue_not_cached ds' p w1)
    by (now rewrite (is_cached_same_cache _ _ _ Hcache)).
  rewrite settle_log. simpl. rewrite Hlog. now rewrite <- app_assoc.
Qed.

(** The shape of the promises a query creates: a target served by the cache
    of the world the query starts in is a hit, any other a miss for its own
    request. *)
Lemma issue_all_detail ds qts w0 w :
  cache w = cache w0 ->
  cache (issue_all ds qts w).1 = cache w0 /\
  Forall2
    (fun qt s =>
       exists pd, s = Waiting qt pd /\
         match pd with
         | Hit _ => is_cached w0 (req qt) = true
         | Miss q avro _ =>
             q = req qt /\ avro = isAvro q /\ is_cached w0 q = false
         end)
    qts (issue_all ds qts w).2.
Proof.
  revert w. induction qts as [|qt rest IH]; intros w Hcache; simpl.
  - split; [assumption|constructor].
  - destruct (is_cached w0 (req qt)) eqn:Hc.
    + destruct (issue_is_cached ds (req qt) w) as [tb ->].
      { now rewrite (is_cached_same_cache _ _ _ Hcache). }
      destruct (IH w Hcache) as [Hc' Hall].
      destruct (issue_all ds rest w) as [w2 tl]. simpl in *.
      split; [assumption|]. constructor; [|assumption]. eauto.
    + rewrite (issue_not_cached ds (req qt) w)
        by (now rewrite (is_cached_same_cache _ _ _ Hcache)).
      destruct (IH (log_fetch (req qt, isBinary (req qt)) w) Hcache) as [Hc' Hall].
      destruct (issue_all ds rest _) as [w2 tl]. simpl in *.
      split; [assumption|]. constructor; [|assumption].
      eexists. split; [reflexivity|]. simpl. auto.
Qed.

Lemma queries_detail ds options w qt pd :
  Waiting qt pd ∈ queries_of ds options w ->
  qt ∈ queryTargets options /\
  match pd with
  | Hit _ => is_cached w (req qt) = true
  | Miss q avro _ => q = req qt /\ avro = isAvro q /\ is_cached w q = false
  end.
Proof.
  intros Hin. unfold queries_of in Hin.
  destruct (issue_all_detail ds (queryTargets options) w w eq_refl) as [_ Hall].
  apply list_elem_of_lookup in Hin as [k Hk].
  destruct (Forall2_lookup_r _ _ _ _ _ Hall Hk) as (qt' & Hqt & pd' & [= <- <-] & Hpd).
  split; [eapply list_elem_of_lookup_2; eauto|exact Hpd].
Qed.

Lemma queries_cover ds options w qt :
  qt ∈ queryTargets options ->
  exists pd, Waiting qt pd ∈ queries_of ds options w.
Proof.
  intros Hin. unfold queries_of.
  destruct (issue_all_detail ds (queryTargets options) w w eq_refl) as [_ Hall].
  apply list_elem_of_lookup in Hin as [k Hk].
  destruct (Forall2_lookup_l _ _ _ _ _ Hall Hk) as (s & Hs & pd & -> & _).
  exists pd. eapply list_elem_of_lookup_2; eauto.
Qed.

(** The calls a list of targets makes, all of them before any answer. *)
Lemma issue_all_calls ds qts w0 w :
  cache w = cache w0 ->
  fetch_log (issue_all ds qts w).1 =
    (fetch_log w ++
     List.map (fun qt => (req qt, isBinary (req qt))) (misses w0 qts))%list.
Proof.
  revert w. induction qts as [|qt rest IH]; intros w Hcache; simpl.
  - now rewrite app_nil_r.
  - destruct (is_cached w0 (req qt)) eqn:Hc; simpl.
    + destruct (issue_is_cached ds (req qt) w) as [tb ->].
      { now rewrite (is_cached_same_cache _ _ _ Hcache). }
      specialize (IH w Hcache). destruct (issue_all ds rest w) as [w2 tl].
      exact IH.
    + rewrite (issue_not_cached ds (req qt) w)
        by (now rewrite (is_cached_same_cache _ _ _ Hcache)).
      specialize (IH (log_fetch (req qt, isBinary (req qt)) w) Hcache).
      destruct (issue_all ds rest _) as [w2 tl]. simpl in *.
      rewrite IH. now rewrite <- app_assoc.
Qed.

(** A query whose targets are not all dropped is the event loop run on the
    promises it created. *)
Lemma query_unfold ds options sched w :
  queryTargets options <> [] ->
  query ds options sched w =
    (let st := drain ds (run_schedule ds sched
                 ((issue_all ds (queryTargets options) w).1,
                  {| slots := queries_of ds options w; rejection := None |})) in
     (st.1, join_result st.2)).
Proof.
  intros Hne. unfold query, queries_of.
  destruct (Nat.eqb_spec (List.length (queryTargets options)) 0) as [E|_];
    [apply length_zero_iff_nil in E; contradiction|].
  destruct (issue_all ds (queryTargets options) w) as [w1 queries]. simpl.
  now destruct (drain ds _) as [w2 j].
Qed.

Lemma queries_waiting ds options w :
  Forall (fun s => exists qt pd, s = Waiting qt pd) (queries_of ds options w).
Proof.
  unfold queries_of. apply Forall_lookup. intros k s Hs.
  destruct (Forall2_lookup_r _ _ _ _ _
              (issue_all_shape ds (queryTargets options) w) Hs)
    as (qt & _ & pd & ->).
  eauto.
Qed.

(** Invariants of the event loop, in general: what every settlement and
    every passing of time preserves holds when all promises have settled. *)
Lemma fold_complete_general ds init (I : World * Join -> Prop) :
  (forall i st, join_inv ds init st.2 -> I st -> I (complete ds i st)) ->
  forall l st,
    join_inv ds init st.2 -> I st ->
    join_inv ds init (fold_left (fun st i => complete ds i st) l st).2 /\
    I (fold_left (fun st i => complete ds i st) l st).
Proof.
  intros Hstep l. induction l as [|i l IH]; intros st Hinv HI; simpl.
  - auto.
  - apply IH; [now apply complete_inv|now apply Hstep].
Qed.

Lemma event_loop_general ds init (I : World * Join -> Prop) sched w :
  Forall (fun s => exists qt pd, s = Waiting qt pd) init ->
  (forall dt w j, I (w, j) -> I (elapse dt w, j)) ->
  (forall i st, join_inv ds init st.2 -> I st -> I (complete ds i st)) ->
  I (w, {| slots := init; rejection := None |}) ->
  I (drain ds (run_schedule ds sched (w, {| slots := init; rejection := None |}))).
Proof.
  intros Hwait Helapse Hstep HI.
  set (j0 := {| slots := init; rejection := None |}) in *.
  assert (Hinv0 : join_inv ds init j0).
  { split; simpl.
    - apply Forall2_same_length_lookup. split; [reflexivity|].
      intros k s0 s Hs0 Hs. left. congruence.
    - intros k e Hk. rewrite Forall_lookup in Hwait.
      destruct (Hwait k _ Hk) as (qt & pd & [=]). }
  assert (Hrun : forall st, join_inv ds init st.2 -> I st ->
                   join_inv ds init (run_schedule ds sched st).2 /\
                   I (run_schedule ds sched st)).
  { unfold run_schedule. induction sched as [|[i dt] sched IH];
      intros [w' j] Hinv HI'; simpl.
    - auto.
    - apply IH.
      + now apply (complete_inv ds init i (elapse dt w', j)).
      + apply (Hstep i (elapse dt w', j)); [exact Hinv|now apply Helapse]. }
  destruct (Hrun (w, j0) Hinv0 HI) as [Hinv1 HI1].
  unfold drain. now apply (fold_complete_general ds init I Hstep).
Qed.

(** The same for a property of the world alone. *)
Lemma event_loop_world ds init (P : World -> Prop) sched w :
  Forall (fun s => exists qt pd, s = Waiting qt pd) init ->
  (forall dt w, P w -> P (elapse dt w)) ->
  (forall qt pd w, Waiting qt pd ∈ init -> P w -> P (settle ds pd w).1) ->
  P w ->
  P (drain ds (run_schedule ds sched (w, {| slots := init; rejection := None |}))).1.
Proof.
  intros Hwait Helapse Hsettle HP.
  apply (event_loop_general ds init (fun st => P st.1)); try assumption.
  - intros dt w' j. apply Helapse.
  - intros i [w' j] [Hprog _] HP'. cbn beta in *. cbn [fst snd] in Hprog, HP'.
    destruct (complete_cases ds i w' j) as [[E _]|(qt & pd & Hi & E)];
      rewrite E; [exact HP'|]. cbn [fst]. apply (Hsettle qt); [|assumption].
    destruct (Forall2_lookup_r _ _ _ _ _ Hprog Hi) as (s0 & Hs0 & [E0|E0]);
      [|discriminate].
    subst s0. eapply list_elem_of_lookup_2; eauto.
Qed.

Lemma issue_all_world ds qts (P : World -> Prop) w :
  (forall c w, P w -> P (log_fetch c w)) ->
  P w -> P (issue_all ds qts w).1.
Proof.
  intros Hlog. revert w. induction qts as [|qt rest IH]; intros w HP; simpl.
  - assumption.
  - destruct (issue_cases ds (req qt) w) as [[tb ->]| ->].
    + specialize (IH w HP). now destruct (issue_all ds rest w).
    + specialize (IH _ (Hlog (req qt, isBinary (req qt)) w HP)).
      now destruct (issue_all ds rest _).
Qed.

(** A property of the world that calls, settlements of the query's own
    promises and the passing of time preserve holds after the query. *)
Lemma query_world ds options sched w (P : World -> Prop) :
  (forall c w, P w -> P (log_fetch c w)) ->
  (forall dt w, P w -> P (elapse dt w)) ->
  (forall qt pd w',
     Waiting qt pd ∈ queries_of ds options w -> P w' -> P (settle ds pd w').1) ->
  P w -> P (query ds options sched w).1.
Proof.
  intros Hlog Helapse Hsettle HP.
  destruct (query_cases ds options sched w) as [[_ ->]|[Hne _]]; [assumption|].
  rewrite (query_unfold ds options sched w Hne). simpl.
  apply event_loop_world; try assumption.
  - apply queries_waiting.
  - now apply issue_all_world.
Qed.

Lemma query_log ds options sched w :
  fetch_log (query ds options sched w).1 =
    (fetch_log w ++
     List.map (fun qt => (req qt, isBinary (req qt)))
       (misses w (queryTargets options)))%list.
Proof.
  destruct (query_cases ds options sched w)
    as [[Hq ->]|(_ & w2 & rej & -> & _ & Hsteps)]; simpl.
  - rewrite Hq. simpl. now rewrite app_nil_r.
  - rewrite (callback_steps_log _ _ Hsteps). now apply issue_all_calls.
Qed.

(** X8: a call that starts when a path already has a complete entry leaves
    that entry alone.  If the cache of the world in which an awaited
    [_fetchOrUseCached] (for this or any other path) or a whole query starts
    maps [p] to an entry that holds a table, the world it ends in maps [p] to
    the same entry, table and timestamp, for any instance and under any
    schedule.  (An entry written while a fetch for its path is still in
    flight is not in this case: the settlement of that fetch replaces it.) *)
Theorem complete_entry_survives_calls ds p ct w :
  cache w !! p = Some ct -> is_Some (table ct) ->
  (forall q latency, cache (_fetchOrUseCached ds q latency w).1 !! p = Some ct) /\
  (forall options sched, cache (query ds options sched w).1 !! p = Some ct).
Proof.
  intros Hc [tb Ht].
  assert (Hcached : is_cached w p = true) by (apply is_cached_spec; eauto).
  split.
  - intros q latency. unfold _fetchOrUseCached.
    destruct (is_cached w q) eqn:Hq.
    + destruct (issue_is_cached ds q w Hq) as [tb' ->]. exact Hc.
    + rewrite (issue_not_cached ds q w Hq).
      rewrite settle_other; [exact Hc|]. intros ->. congruence.
  - intros options sched.
    apply (query_world ds options sched w (fun w' => cache w' !! p = Some ct));
      try assumption; try (intros; assumption).
    intros qt pd w' Hin Hp.
    apply queries_detail in Hin as [_ Hpd]. destruct pd as [tb'|q avro answer].
    + exact Hp.
    + destruct Hpd as (-> & _ & Hmiss). rewrite settle_other; [exact Hp|].
      intros ->. congruence.
Qed.

End FurtherPipelineFacts.

(** ** Queries: backend calls, schedules and what stays in the cache *)

Section FurtherQueryFacts.
Context `{Collaborators}.

(** The outcome of a query, read off its promises. *)
Lemma query_result_cases ds options sched w :
  (Forall (fun s => is_ok (target_result ds s)) (queries_of ds options w) /\
   (query ds options sched w).2 =
     Ok {| data := flattenDeep
                     (fulfilled (List.map (fun s => Settled (target_result ds s))
                                   (queries_of ds options w))) |})
  \/
  (exists s e, s ∈ queries_of ds options w /\ target_result ds s = Fail e /\
               (query ds options sched w).2 = Fail e).
Proof.
  destruct (query_cases ds options sched w)
    as [[Hq ->]|(_ & w2 & rej & -> & Hrej & _)].
  - left. unfold queries_of. rewrite Hq. simpl. split; [constructor|reflexivity].
  - destruct rej as [e|]; simpl in *.
    + right. destruct Hrej as [k Hk]. rewrite list_lookup_fmap in Hk.
      destruct (queries_of ds options w !! k) as [s|] eqn:Hs; [|discriminate].
      injection Hk as Hk. exists s, e. split; [|auto].
      eapply list_elem_of_lookup_2; eauto.
    + left. split; [|reflexivity]. apply Forall_lookup. intros k s Hs.
      destruct (target_result ds s) as [v|e] eqn:Hr; [now exists v|].
      exfalso. apply (Hrej k e). now rewrite list_lookup_fmap, Hs, <- Hr.
Qed.

(** X9: for a datasource whose backend is one of the four file systems
    (whose [fetch] returns a promise, as the [FS.FileSystem] interface has
    it; the plain object installed for the discriminator "constructor" has
    no [fetch] and is excluded), the backend calls of a query are exactly the
    requests of the kept targets that the cache of the starting world does
    not serve, in target order, one call per target: two targets with the
    same uncached request make two calls.  The calls do not depend on the
    schedule. *)
Theorem query_backend_calls ds options sched w :
  fs ds <> PlainObject ->
  fetch_log (query ds options sched w).1 =
    (fetch_log w ++
     List.map (fun qt => (req qt, isBinary (req qt)))
       (misses w (queryTargets options)))%list /\
  (forall sched',
     fetch_log (query ds options sched' w).1 = fetch_log (query ds options sched w).1).
Proof.
  intros _. split; [apply query_log|]. intros sched'. now rewrite !query_log.
Qed.

(** X10: whether a query resolves or is rejected, and the data it resolves
    with, do not depend on the order or the times at which the fetches
    complete; only the reason of a rejection can. *)
Theorem query_outcome_schedule_independent ds options sched sched' w :
  match (query ds options sched w).2, (query ds options sched' w).2 with
  | Ok r, Ok r' => r = r'
  | Fail _, Fail _ => True
  | _, _ => False
  end.
Proof.
  destruct (query_result_cases ds options sched w) as [[Hall ->]|(s & e & Hin & Hs & ->)];
    destruct (query_result_cases ds options sched' w)
      as [[Hall' ->]|(s' & e' & Hin' & Hs' & ->)]; try reflexivity; try exact I.
  - rewrite Forall_forall in Hall. destruct (Hall s' Hin') as [v Hv]. congruence.
  - rewrite Forall_forall in Hall'. destruct (Hall' s Hin) as [v Hv]. congruence.
Qed.

(** X11: when every failing target of a query fails with the same reason, in
    particular when exactly one target fails, the query is rejected with that
    reason under every schedule. *)
Theorem query_rejection_reason ds options sched w s e :
  s ∈ queries_of ds options w ->
  target_result ds s = Fail e ->
  (forall s' e', s' ∈ queries_of ds options w ->
                 target_result ds s' = Fail e' -> e' = e) ->
  (query ds options sched w).2 = Fail e.
Proof.
  intros Hin Hfail Hsame.
  destruct (query_result_cases ds options sched w)
    as [[Hall _]|(s' & e' & Hin' & Hs' & ->)].
  - rewrite Forall_forall in Hall. destruct (Hall s Hin) as [v Hv]. congruence.
  - now rewrite (Hsame s' e' Hin' Hs').
Qed.

(** Once all promises have settled, every request whose fetch was answered
    and parsed is served by the cache. *)
Lemma query_caches_parsed ds options sched w qt p avro answer :
  Waiting qt (Miss p avro answer) ∈ queries_of ds options w ->
  is_ok (pending_table ds (Miss p avro answer)) ->
  is_cached (query ds options sched w).1 p = true.
Proof.
  intros Hin Hok.
  assert (Hne : queryTargets options <> []).
  { intros E. unfold queries_of in Hin. rewrite E in Hin. inversion Hin. }
  rewrite (query_unfold ds options sched w Hne). cbn zeta. cbn [fst].
  set (init := queries_of ds options w) in *.
  set (w1 := (issue_all ds (queryTargets options) w).1).
  pose (I := fun st : World * Join =>
    forall k qt p avro answer r,
      init !! k = Some (Waiting qt (Miss p avro answer)) ->
      slots st.2 !! k = Some (Settled r) ->
      is_ok (pending_table ds (Miss p avro answer)) ->
      is_cached st.1 p = true).
  assert (HI : I (drain ds (run_schedule ds sched
                  (w1, {| slots := init; rejection := None |})))).
  { apply event_loop_general.
    - apply queries_waiting.
    - intros dt w' j HI k qt' p' avro' answer' r Hk Hs Hp. simpl.
      apply (HI k qt' p' avro' answer' r Hk Hs Hp).
    - intros i [w' j] [Hprog _] HI k qt' p' avro' answer' r Hk Hs Hp.
      cbn [fst snd] in *.
      destruct (complete_cases ds i w' j) as [[E _]|(qt0 & pd0 & Hi & E)];
        rewrite E in *; cbn [fst snd slots] in *.
      + apply (HI k qt' p' avro' answer' r Hk Hs Hp).
      + destruct (decide (k = i)) as [->|Hki].
        * destruct (Forall2_lookup_r _ _ _ _ _ Hprog Hi) as (s0 & Hs0 & [E0|E0]);
            [|discriminate].
          subst s0. rewrite Hk in Hs0. injection Hs0 as <- <-.
          destruct Hp as [tb Htb]. apply (settle_caches_success _ _ _ _ _ tb).
          now rewrite settle_result.
        * rewrite list_lookup_insert_ne in Hs by congruence.
          apply settle_keeps_cached.
          apply (HI k qt' p' avro' answer' r Hk Hs Hp).
    - intros k qt' p' avro' answer' r Hk Hs Hp. simpl in Hs.
      destruct (Forall_lookup_1 _ _ _ _ (queries_waiting ds options w) Hs)
        as (? & ? & [=]). }
  destruct (event_loop ds sched w1 init (queries_waiting ds options w)) as [Hslots _].
  apply list_elem_of_lookup in Hin as [k Hk].
  apply (HI k qt p avro answer (target_result ds (Waiting qt (Miss p avro answer))));
    [exact Hk| |exact Hok].
  rewrite Hslots, list_lookup_fmap. now rewrite Hk.
Qed.

Lemma query_keeps_cached ds options sched w p :
  is_cached w p = true -> is_cached (query ds options sched w).1 p = true.
Proof.
  intros Hc.
  apply (query_world ds options sched w (fun w' => is_cached w' p = true));
    try assumption; try (intros; assumption).
  intros qt pd w' _. apply settle_keeps_cached.
Qed.

(** X12: all-or-nothing concerns the result only.  Even when the query is
    rejected, each of its targets whose fetch was answered and parsed has
    its request in the cache once all promises have settled. *)
Theorem rejected_query_still_caches ds options sched w qt p avro res parser tb :
  Waiting qt (Miss p avro (Ok res)) ∈ queries_of ds options w ->
  select_parser ds (headers res !! "content-type") avro = Some parser ->
  parser_parse parser res (headers res !! "content-type") = Ok tb ->
  exists ct tb', cache (query ds options sched w).1 !! p = Some ct /\
                 table ct = Some tb'.
Proof.
  intros Hin Hsel Hparse. apply is_cached_spec.
  apply (query_caches_parsed ds options sched w qt p avro (Ok res) Hin).
  exists tb. simpl. now rewrite Hsel, Hparse.
Qed.

(** X13: a query that resolved is served from the cache the next time: the
    same targets, queried again in the world the first query left, by any
    instance and under any schedule, make no backend call. *)
Theorem resolved_query_repeats_from_cache ds ds' options sched sched' w r :
  (query ds options sched w).2 = Ok r ->
  let w1 := (query ds options sched w).1 in
  fetch_log (query ds' options sched' w1).1 = fetch_log w1.
Proof.
  intros Hok w1. rewrite query_log.
  replace (misses w1 (queryTargets options)) with (@nil QueuedTarget);
    [simpl; now rewrite app_nil_r|].
  symmetry. unfold misses.
  assert (Hall : forall qt, qt ∈ queryTargets options -> is_cached w1 (req qt) = true).
  { intros qt Hqt. destruct (queries_cover ds options w qt Hqt) as [pd Hin].
    destruct (queries_detail ds options w qt pd Hin) as [_ Hpd].
    destruct pd as [tb|q avro answer].
    - now apply query_keeps_cached.
    - destruct Hpd as (-> & _ & _).
      apply (query_caches_parsed ds options sched w qt _ avro answer Hin).
      destruct (query_result_cases ds options sched w)
        as [[Hall _]|(s & e & _ & _ & Hf)]; [|congruence].
      rewrite Forall_forall in Hall. destruct (Hall _ Hin) as [v Hv].
      unfold target_result in Hv. revert Hv.
      destruct (pending_table ds (Miss (req qt) avro answer)) as [tb|e];
        [now exists tb|discriminate]. }
  induction (queryTargets options) as [|qt qts IH]; [reflexivity|]. simpl.
  rewrite (Hall qt) by (now left). simpl. apply IH.
  intros qt' Hin. apply Hall. now right.
Qed.

(** X14: a query all of whose kept targets are served by the cache calls no
    backend and leaves the cache exactly as it was; only the clock moves. *)
Theorem cached_query_leaves_world ds options sched w :
  (forall qt, qt ∈ queryTargets options -> is_cached w (req qt) = true) ->
  cache (query ds options sched w).1 = cache w /\
  fetch_log (query ds options sched w).1 = fetch_log w.
Proof.
  intros Hall. split.
  - apply (query_world ds options sched w (fun w' => cache w' = cache w));
      try reflexivity; try (intros; assumption).
    intros qt pd w' Hin Hc. apply queries_detail in Hin as [Hqt Hpd].
    destruct pd as [tb|q avro answer]; [exact Hc|].
    destruct Hpd as (-> & _ & Hmiss). rewrite (Hall qt Hqt) in Hmiss. discriminate.
  - rewrite query_log.
    replace (misses w (queryTargets options)) with (@nil QueuedTarget);
      [simpl; now rewrite app_nil_r|].
    symmetry. unfold misses.
    induction (queryTargets options) as [|qt qts IH]; [reflexivity|]. simpl.
    rewrite (Hall qt) by (now left). simpl. apply IH.
    intros qt' Hin. apply Hall. now right.
Qed.

(** X15: the caller's own scoped variable "range" never reaches the template
    service: the query overwrites it with the time filter, so two queries
    that differ only in that variable behave alike. *)
Theorem query_overwrites_range ds ts sv x sched w :
  query ds {| targets := ts; scopedVars := <["range" := x]> sv |} sched w
  = query ds {| targets := ts; scopedVars := sv |} sched w.
Proof.
  unfold query, queryTargets. simpl. now rewrite insert_insert_eq.
Qed.

(** X16: in a world where every entry is stored under its own path and holds
    a table (the empty cache the process starts with is one), every step of
    any instance and every query leads to such a world again: incomplete
    entries never arise. *)
Theorem entries_stay_coherent w :
  entries_coherent w ->
  (forall w', rtc step w w' -> entries_coherent w') /\
  (forall ds options sched, entries_coherent (query ds options sched w).1).
Proof.
  intros Hco.
  assert (Hstep : forall w1 w2, step w1 w2 -> entries_coherent w1 -> entries_coherent w2).
  { intros w1 w2 [ds p w0|w0 w3 [ds pd w4|dt w4]] Hc1.
    - unfold entries_coherent. now rewrite issue_cache.
    - destruct (settle_cache ds pd w4) as [E|(q & t & tb & _ & Hpath & Ht & E)];
        unfold entries_coherent; rewrite E; [exact Hc1|].
      intros p ct Hp. destruct (decide (p = q)) as [->|Hne].
      + rewrite lookup_insert_eq in Hp. injection Hp as <-. split; [exact Hpath|eauto].
      + rewrite lookup_insert_ne in Hp by congruence. now apply Hc1.
    - exact Hc1. }
  assert (Hrtc : forall w', rtc step w w' -> entries_coherent w').
  { intros w' Hsteps. induction Hsteps as [|w1 w2 w3 Hs _ IH]; [assumption|].
    apply IH. now apply (Hstep w1 w2). }
  split; [exact Hrtc|]. intros ds options sched. apply Hrtc, query_steps.
Qed.


(** X18: for a datasource whose backend is one of the four file systems
    (whose [list] returns a promise; the plain object installed for the
    discriminator "constructor" has no [list] and is excluded): whenever the
    promise of [list("")] is resolved, or is rejected with a string or with an
    object that coerces to a string, the connectivity check resolves with a
    status that is "success" or "error"; it is "success" exactly when the
    listing resolved, and the message then reports the number of files.
    Rejections with [undefined] or [null], and with values whose coercion to
    a string itself throws, are outside this statement. *)
Theorem testDatasource_resolves ds :
  fs ds <> PlainObject ->
  (forall e, fs_list (fs ds) "" = Fail e ->
     (exists s, e = JsString s) \/
     (exists text cancelled err, e = JsObject text cancelled err)) ->
  exists r,
    testDatasource ds = Ok r /\
    (status r = "success" \/ status r = "error") /\
    (status r = "success" <->
     exists dir, fs_list (fs ds) "" = Ok dir /\
       message r = "Root Contains " ++ pretty (List.length (files dir)) ++ " Files").
Proof.
  intros _ Hreason. unfold testDatasource.
  destruct (fs_list (fs ds) "") as [dir|err]; simpl.
  - eexists. split; [reflexivity|]. simpl. split; [now left|].
    split; [eauto|reflexivity].
  - destruct (Hreason err eq_refl) as [[s0 ->]|(text & c & e & ->)]; simpl.
    + eexists. split; [reflexivity|]. simpl. split; [now right|].
      split; [discriminate|]. intros (dir & [=] & _).
    + destruct (c && e); eexists; (split; [reflexivity|]); simpl;
        (split; [now right|]); (split; [discriminate|]); intros (dir & [=] & _).
Qed.

End FurtherQueryFacts.

#[local] Existing Instance Demo.collaborators.

(** C7 (the code at the failing input): when the promise of [list("")] is
    rejected with [undefined], reading [err.cancelled] in the catch handler
    throws, and the promise returned by [testDatasource] is rejected with
    that [TypeError] instead of resolving with a status object. *)
Theorem testDatasource_rejects_on_undefined_reason :
  fs_list (fs Demo.s3_ds) "" = Fail JsUndefined /\
  testDatasource Demo.s3_ds
  = Fail (TypeError "Cannot read properties of undefined").
Proof. split; reflexivity. Qed.

(** ** The model at work *)

Example indexOf_json :
  JsString.indexOf "application/json; charset=utf-8" "json" = 12.
Proof. reflexivity. Qed.

Example lastIndexOf_dot : JsString.lastIndexOf "a.b.avro" "." = 3.
Proof. reflexivity. Qed.

Example lastIndexOf_absent : JsString.lastIndexOf "abc" "?" = -1.
Proof. reflexivity. Qed.

Example extension_query_and_fragment : extension "a/b.c/x.AvRo?x=1#f.g" = "avro".
Proof. reflexivity. Qed.

Example extension_leading_dot : extension ".avro" = "".
Proof. reflexivity. Qed.

Example extension_leading_question : extension "?.avro" = "avro".
Proof. reflexivity. Qed.

Example extension_dot_after_question : extension "a.avro?b.csv" = "avro".
Proof. reflexivity. Qed.

Example constructor_local :
  fs <$> (match constructor Demo.local_settings Demo.backendSrv with
          | Ok ds => Some ds
          | Fail _ => None
          end) = Some LocalFileSystem.
Proof. reflexivity. Qed.

Example constructor_unregistered :
  constructor {| jsonData := Some {| timeInterval := None; type := Some "ftp" |} |}
    Demo.backendSrv
  = Ok {| interval := None; fs := UnknownFileSystem; parsers := parsers Demo.local_ds |}.
Proof. reflexivity. Qed.

Example constructor_no_jsonData :
  constructor {| jsonData := None |} Demo.backendSrv
  = Ok {| interval := None; fs := UnknownFileSystem; parsers := parsers Demo.local_ds |}.
Proof. reflexivity. Qed.

Example testDatasource_local :
  testDatasource Demo.local_ds
  = Ok {| status := "success"; message := "Root Contains 3 Files" |}.
Proof. reflexivity. Qed.

Example testDatasource_request_failure :
  testDatasource {| interval := None; fs := NginxFileSystem; parsers := ∅ |}
  = Ok {| status := "error";
          message := "Error making HTTP request.  Check the javascrit console for more information" |}.
Proof. reflexivity. Qed.

Example testDatasource_unsupported :
  testDatasource {| interval := None; fs := UnknownFileSystem; parsers := ∅ |}
  = Ok {| status := "error"; message := "Error: Unsupported file system" |}.
Proof. reflexivity. Qed.

(** Two schedules of the same query: the caches are stamped differently, the
    data are the same. *)
Example query_schedules :
  let a := query Demo.local_ds Demo.all_good [(1%nat, 5)] Demo.start in
  let b := query Demo.local_ds Demo.all_good [(0%nat, 40); (1%nat, 2)] Demo.start in
  a.2 = b.2 /\
  timestamp <$> (cache a.1 !! "data.csv") = Some 1008 /\
  timestamp <$> (cache b.1 !! "data.csv") = Some 1048 /\
  fetch_log a.1 = [("events.avro", true); ("data.csv", false)].
Proof. repeat split; reflexivity. Qed.

(** The same path twice in one query: both targets miss the cache and both
    call the backend. *)
Example query_same_path_twice :
  fetch_log
    (query Demo.local_ds
       {| targets := [Demo.target "data.csv" false; Demo.target "data.csv" false];
          scopedVars := ∅ |} [] Demo.start).1
  = [("data.csv", false); ("data.csv", false)].
Proof. reflexivity. Qed.

Lemma fetchOrUseCached_witness :
  _fetchOrUseCached Demo.local_ds "data.csv" 20 Demo.warm
    = (Demo.warm, Ok Demo.csv_table)
  /\
  (let out := _fetchOrUseCached Demo.local_ds "data.csv" 20 Demo.start in
   fetch_log out.1 = [("data.csv", false)] /\
   out.2 = Ok Demo.csv_table /\
   cache out.1 !! "data.csv"
     = Some {| path := "data.csv"; timestamp := now out.1;
               table := Some Demo.csv_table |} /\
   now out.1 = 1023).
Proof.
  split.
  - apply (proj1 (fetchOrUseCached_hit_or_miss Demo.local_settings Demo.backendSrv
                    Demo.local_ds "data.csv" 20 Demo.warm eq_refl)
             {| path := "data.csv"; timestamp := 900; table := Some Demo.csv_table |});
      reflexivity.
  - destruct (proj2 (fetchOrUseCached_hit_or_miss Demo.local_settings Demo.backendSrv
                       Demo.local_ds "data.csv" 20 Demo.start eq_refl))
      as [Hlog Hres].
    { intros ct Hc. vm_compute in Hc. discriminate. }
    destruct (Hres Demo.csv_response eq_refl) as (parser & Hsel & Hput).
    vm_compute in Hsel. injection Hsel as <-.
    destruct (Hput Demo.csv_table eq_refl) as (Hout & _ & Hcache & Hnow).
    repeat split; assumption.
Defined.

Lemma failed_resolution_witness :
  ((_fetchOrUseCached Demo.local_ds "missing.csv" 20 Demo.warm).2 = Fail Demo.not_found /\
   cache (_fetchOrUseCached Demo.local_ds "missing.csv" 20 Demo.warm).1 = cache Demo.warm)
  /\
  ((_fetchOrUseCached Demo.local_ds "broken.avro" 20 Demo.warm).2 = Fail Demo.bad_magic /\
   cache (_fetchOrUseCached Demo.local_ds "broken.avro" 20 Demo.warm).1 = cache Demo.warm).
Proof.
  destruct (failed_resolution_keeps_cache Demo.local_ds) as (_ & _ & Hfetch & Hparse).
  split.
  - apply Hfetch.
    + intros ct Hc. vm_compute in Hc. discriminate.
    + reflexivity.
  - apply (Hparse "broken.avro" 20 Demo.warm Demo.broken_response AvroResponseParser).
    + intros ct Hc. vm_compute in Hc. discriminate.
    + reflexivity.
    + reflexivity.
    + reflexivity.
Defined.


Lemma query_empty_witness :
  query Demo.local_ds Demo.no_paths [] Demo.start = (Demo.start, Ok {| data := [] |}).
Proof.
  apply (proj1 (query_empty_targets Demo.local_ds Demo.no_paths [] Demo.start)).
  constructor; [left; reflexivity|].
  constructor; [right; reflexivity|].
  constructor.
Defined.

Lemma query_all_or_nothing_witness :
  exists e',
    (query Demo.local_ds Demo.one_missing [(2%nat, 5)] Demo.start).2 = Fail e'.
Proof.
  destruct (query_all_or_nothing Demo.local_ds Demo.one_missing [(2%nat, 5)] Demo.start
              (Waiting {| queued := Demo.target "missing.csv" false; req := "missing.csv" |}
                 (Miss "missing.csv" false (Fail Demo.not_found)))
              Demo.not_found)
    as (e' & Hq & _).
  - apply list_elem_of_In. right. left. reflexivity.
  - apply fetch_rejected.
  - exists e'. exact Hq.
Defined.

Lemma query_data_order_witness :
  (query Demo.local_ds Demo.all_good [(1%nat, 5)] Demo.start).2 =
    Ok {| data := [ SeriesEntry "a" "a" (Some [(VNumber 1, VNumber 10)]);
                    SeriesEntry "b" "b" (Some [(VNumber 1, VNumber 20)]);
                    RawTable Demo.csv_table ] |}.
Proof.
  apply (proj2 (query_data_order Demo.local_ds Demo.all_good [(1%nat, 5)] Demo.start
                  [ {| columns := ["key"; "x"; "y"]; rows := [] |}; Demo.csv_table ]
                  ltac:(repeat constructor; eexists; reflexivity))).
Defined.

Lemma cache_shared_witness :
  (let w1 := (_fetchOrUseCached Demo.local_ds "data.csv" 20 Demo.start).1 in
   _fetchOrUseCached Demo.s3_ds "data.csv" 7 w1 = (w1, Ok Demo.csv_table))
  /\
  (let w' := (settle Demo.local_ds (Miss "data.csv" false (Ok Demo.csv_response))
                Demo.warm).1 in
   cache Demo.warm !! "data.csv"
     = Some {| path := "data.csv"; timestamp := 900; table := Some Demo.csv_table |} /\
   cache w' !! "data.csv"
     = Some {| path := "data.csv"; timestamp := 1003; table := Some Demo.csv_table |} /\
   size (cache w') = size (cache Demo.warm)).
Proof.
  split.
  - apply (proj1 cache_shared_one_entry_no_eviction Demo.local_ds Demo.s3_ds
             "data.csv" 20 7 Demo.start Demo.csv_table).
    reflexivity.
  - destruct (proj1 (proj2 cache_shared_one_entry_no_eviction) Demo.local_ds
                "data.csv" false Demo.csv_response CSVResponseParser Demo.csv_table
                Demo.warm)
      as (_ & _ & Hnew & _ & Hsize & _).
    + reflexivity.
    + reflexivity.
    + split; [reflexivity|]. split; [exact Hnew|].
      apply Hsize. eexists. reflexivity.
Defined.

(** ** The further properties at work *)

Lemma constructor_selects_backend_witness :
  getFileSystem Demo.local_ds = LocalFileSystem /\ interval Demo.local_ds = None.
Proof.
  exact (constructor_selects_backend Demo.local_settings Demo.backendSrv
           Demo.local_ds eq_refl).
Defined.

Lemma constructor_throws_iff_witness :
  exists e,
    constructor
      {| jsonData := Some {| timeInterval := None; type := Some "valueOf" |} |}
      Demo.backendSrv = Fail e.
Proof.
  apply (proj2 (constructor_throws_iff
                  {| jsonData := Some {| timeInterval := None; type := Some "valueOf" |} |}
                  Demo.backendSrv)).
  split.
  - apply (bool_decide_unpack _). vm_compute. exact I.
  - discriminate.
Defined.

Lemma extension_needs_inner_dot_witness :
  extension ".avro" = "" /\ isBinary ".avro" = false.
Proof.
  apply (extension_needs_inner_dot "." "avro").
  apply (bool_decide_unpack _). vm_compute. exact I.
Defined.

Lemma extension_lowercase_dotless_witness :
  ascii_only (extension "Report.Final.AVRO") /\
  Forall (fun c => is_upper c = false) (JsString.chars (extension "Report.Final.AVRO")) /\
  ("."%char ∉ JsString.chars (extension "Report.Final.AVRO")) /\
  JsString.toLowerCase (extension "Report.Final.AVRO") = extension "Report.Final.AVRO".
Proof.
  apply (extension_lowercase_dotless "Report.Final.AVRO").
  repeat constructor.
Defined.

Lemma extension_ignores_query_and_fragment_witness :
  extension "a.avro?x=1" = extension "a.avro" /\
  extension "a.avro?x=1#top" = extension "a.avro" /\
  extension "a.avro#top" = extension "a.avro" /\
  extension "a.avro#top?x=1" = extension "a.avro".
Proof.
  destruct (extension_ignores_query_and_fragment "a.avro" "x=1" "top")
    as (Hq & Hqf & Hf & Hfq).
  - discriminate.
  - apply (bool_decide_unpack _). vm_compute. exact I.
  - split; [apply Hq|split; [apply Hqf|split; [apply Hf|apply Hfq]]];
      apply (bool_decide_unpack _); vm_compute; exact I.
Defined.

(** The cut is at the last "?": a second "?" in the query stays in the
    extension. *)
Example extension_cut_at_last_question :
  extension "a.avro?x?y" = "avro?x" /\ isBinary "a.avro?x?y" = false.
Proof. split; reflexivity. Qed.

Lemma extension_case_insensitive_witness : isAvro "DATA.Avro" = isAvro "data.avro".
Proof.
  apply (proj2 (extension_case_insensitive "DATA.Avro" "data.avro"
                  ltac:(repeat constructor) ltac:(repeat constructor))).
  reflexivity.
Defined.

Lemma failed_fetch_is_retried_witness :
  fetch_log
    (_fetchOrUseCached Demo.s3_ds "missing.csv" 5
       (_fetchOrUseCached Demo.local_ds "missing.csv" 20 Demo.start).1).1
  = [("missing.csv", false); ("missing.csv", false)].
Proof.
  exact (proj2 (failed_fetch_is_retried Demo.local_ds Demo.s3_ds "missing.csv" 20 5
                  Demo.start Demo.not_found eq_refl)).
Defined.

Lemma complete_entry_survives_calls_witness :
  cache (query Demo.local_ds Demo.all_good [(1%nat, 5)] Demo.warm).1 !! "data.csv"
  = Some {| path := "data.csv"; timestamp := 900; table := Some Demo.csv_table |}.
Proof.
  apply (proj2 (complete_entry_survives_calls Demo.local_ds "data.csv"
                  {| path := "data.csv"; timestamp := 900;
                     table := Some Demo.csv_table |}
                  Demo.warm eq_refl (mk_is_Some _ _ eq_refl))).
Defined.

Lemma query_rejection_reason_witness :
  (query Demo.local_ds Demo.one_missing [(2%nat, 5)] Demo.start).2
  = Fail Demo.not_found.
Proof.
  apply (query_rejection_reason Demo.local_ds Demo.one_missing [(2%nat, 5)] Demo.start
           (Waiting {| queued := Demo.target "missing.csv" false; req := "missing.csv" |}
              (Miss "missing.csv" false (Fail Demo.not_found)))).
  - apply list_elem_of_In. right. left. reflexivity.
  - reflexivity.
  - intros s' e' Hin Hfail. apply list_elem_of_In in Hin.
    destruct Hin as [<-|[<-|[<-|[]]]]; vm_compute in Hfail;
      first [discriminate Hfail | injection Hfail as <-; reflexivity].
Defined.

Lemma rejected_query_still_caches_witness :
  (query Demo.local_ds Demo.one_missing [(2%nat, 5)] Demo.start).2
    = Fail Demo.not_found /\
  exists ct tb',
    cache (query Demo.local_ds Demo.one_missing [(2%nat, 5)] Demo.start).1
      !! "events.avro" = Some ct /\
    table ct = Some tb'.
Proof.
  split; [reflexivity|].
  apply (rejected_query_still_caches Demo.local_ds Demo.one_missing [(2%nat, 5)]
           Demo.start
           {| queued := Demo.target "events.avro" true; req := "events.avro" |}
           "events.avro" true Demo.avro_response AvroResponseParser
           {| columns := ["key"; "x"; "y"]; rows := [] |}).
  - apply list_elem_of_In. left. reflexivity.
  - reflexivity.
  - reflexivity.
Defined.

Lemma resolved_query_repeats_from_cache_witness :
  let w1 := (query Demo.local_ds Demo.all_good [(1%nat, 5)] Demo.start).1 in
  fetch_log (query Demo.s3_ds Demo.all_good [] w1).1 = fetch_log w1.
Proof.
  apply (resolved_query_repeats_from_cache Demo.local_ds Demo.s3_ds Demo.all_good
           [(1%nat, 5)] [] Demo.start
           {| data := [ SeriesEntry "a" "a" (Some [(VNumber 1, VNumber 10)]);
                        SeriesEntry "b" "b" (Some [(VNumber 1, VNumber 20)]);
                        RawTable Demo.csv_table ] |}).
  reflexivity.
Defined.

Lemma cached_query_leaves_world_witness :
  let options := {| targets := [Demo.target "data.csv" false]; scopedVars := ∅ |} in
  cache (query Demo.s3_ds options [(0%nat, 9)] Demo.warm).1 = cache Demo.warm /\
  fetch_log (query Demo.s3_ds options [(0%nat, 9)] Demo.warm).1 = fetch_log Demo.warm.
Proof.
  apply (cached_query_leaves_world Demo.s3_ds
           {| targets := [Demo.target "data.csv" false]; scopedVars := ∅ |}
           [(0%nat, 9)] Demo.warm).
  intros qt Hin. apply list_elem_of_In in Hin.
  destruct Hin as [<-|[]]. reflexivity.
Defined.

Lemma entries_stay_coherent_witness :
  entries_coherent (query Demo.local_ds Demo.all_good [(1%nat, 5)] Demo.start).1.
Proof.
  apply (proj2 (entries_stay_coherent Demo.start
                  ltac:(intros p ct Hc; vm_compute in Hc; discriminate))).
Defined.


Lemma testDatasource_resolves_witness :
  (exists r, testDatasource Demo.local_ds = Ok r /\ status r = "success") /\
  (exists r,
     testDatasource {| interval := None; fs := NginxFileSystem; parsers := ∅ |} = Ok r /\
     status r = "error").
Proof.
  split.
  - destruct (testDatasource_resolves Demo.local_ds) as (r & Hr & _ & Hs).
    + discriminate.
    + intros e [=].
    + exists r. split; [exact Hr|]. apply Hs.
      exists {| files := ["data.csv"; "data.json"; "events.avro"] |}.
      split; [reflexivity|]. vm_compute in Hr. injection Hr as <-. reflexivity.
  - destruct (testDatasource_resolves
                {| interval := None; fs := NginxFileSystem; parsers := ∅ |})
      as (r & Hr & [Hs|He] & Hiff).
    + discriminate.
    + intros e [= <-]. right. eauto.
    + apply Hiff in Hs as (dir & [=] & _).
    + exists r. split; [exact Hr|exact He].
Defined.

Lemma query_backend_calls_witness :
  fetch_log
    (query Demo.local_ds
       {| targets := [Demo.target "data.csv" false; Demo.target "events.avro" true;
                      Demo.target "missing.csv" false; Demo.target "events.avro" true];
          scopedVars := ∅ |} [(3%nat, 4)] Demo.warm).1
  = [("data.csv", false); ("events.avro", true); ("missing.csv", false);
     ("events.avro", true)].
Proof.
  destruct (query_backend_calls Demo.local_ds
              {| targets := [Demo.target "data.csv" false; Demo.target "events.avro" true;
                             Demo.target "missing.csv" false; Demo.target "events.avro" true];
                 scopedVars := ∅ |} [(3%nat, 4)] Demo.warm) as [Hcalls _].
  - discriminate.
  - etrans; [exact Hcalls|reflexivity].
Defined.
